(** * Multiply-accumulate server: [examples/sy/mulacc/mulaccwrap/mulacc.py]

    A shallow embedding of [handle_client] and of the interpreter
    primitives it calls, followed by the properties of the request loop.

    Conventions.
    - Python [bytes] are lists of [Byte.byte]; a Python [str] is the list
      of its code points (in [N]); a Python [int] is a [Z].
    - The socket is a record holding the values the successive
      [conn.recv(1024)] calls return, the number of [conn.sendall] calls
      the peer still accepts, the log of the payloads given to
      [conn.sendall] and the number of [conn.close()] calls.
    - Statements run in a state-and-exception monad: an exception keeps
      the mutations made before it was raised, as in Python.
    - [print] is not modelled (it neither reads nor writes the accumulator
      or the socket).  Conversions between [int] and [str] are the
      unbounded ones of the language.  The interpreter's optional cap on
      the number of digits (4300 by default in recent CPython) is not
      modelled: a chunk of 1024 bytes cannot reach it on input, and the
      accumulator would need more than 10^3000 requests to reach it on
      output. *)

From Stdlib Require Import ZArith NArith List Bool Lia.
From Stdlib Require Import Strings.Byte Strings.String.
From Stdlib Require Import Sorting.Permutation.
Import ListNotations.

Local Open Scope N_scope.

(** ** Interpreter primitives *)

Module Py.

Definition bytes := list byte.
Definition str := list N.

(** The exception classes that can arise.  [UnicodeDecodeError] and
    [UnicodeEncodeError] derive from [ValueError]; [OSError] does not. *)
Inductive exception : Set :=
| UnicodeDecodeError
| UnicodeEncodeError
| ValueError
| OSError.

Definition isinstance_ValueError (e : exception) : bool :=
  match e with
  | OSError => false
  | UnicodeDecodeError | UnicodeEncodeError | ValueError => true
  end.

Inductive result (A : Type) : Type :=
| Ok (a : A)
| Raise (e : exception).
Arguments Ok {A} a.
Arguments Raise {A} e.

Definition in_range (lo hi x : N) : bool := (lo <=? x) && (x <=? hi).

(** *** [bytes.decode("utf-8")], strict error handler

    Shortest-form sequences only, no surrogates, nothing above U+10FFFF. *)
Fixpoint utf8_decode (bs : list N) : option str :=
  match bs with
  | [] => Some []
  | b0 :: t0 =>
    if b0 <? 0x80 then option_map (cons b0) (utf8_decode t0)
    else if in_range 0xC2 0xDF b0 then
      match t0 with
      | b1 :: t1 =>
        if in_range 0x80 0xBF b1
        then option_map (cons ((b0 - 0xC0) * 64 + (b1 - 0x80))) (utf8_decode t1)
        else None
      | _ => None
      end
    else if in_range 0xE0 0xEF b0 then
      match t0 with
      | b1 :: b2 :: t2 =>
        if in_range (if b0 =? 0xE0 then 0xA0 else 0x80)
                    (if b0 =? 0xED then 0x9F else 0xBF) b1
           && in_range 0x80 0xBF b2
        then option_map
               (cons (((b0 - 0xE0) * 64 + (b1 - 0x80)) * 64 + (b2 - 0x80)))
               (utf8_decode t2)
        else None
      | _ => None
      end
    else if in_range 0xF0 0xF4 b0 then
      match t0 with
      | b1 :: b2 :: b3 :: t3 =>
        if in_range (if b0 =? 0xF0 then 0x90 else 0x80)
                    (if b0 =? 0xF4 then 0x8F else 0xBF) b1
           && in_range 0x80 0xBF b2 && in_range 0x80 0xBF b3
        then option_map
               (cons ((((b0 - 0xF0) * 64 + (b1 - 0x80)) * 64 + (b2 - 0x80)) * 64
                      + (b3 - 0x80)))
               (utf8_decode t3)
        else None
      | _ => None
      end
    else None
  end.

Definition decode (data : bytes) : result str :=
  match utf8_decode (map Byte.to_N data) with
  | Some s => Ok s
  | None => Raise UnicodeDecodeError
  end.

(** *** [str.encode("utf-8")] *)
Definition byte_of_N (n : N) : byte :=
  match Byte.of_N n with Some b => b | None => x00 end.

Definition utf8_encode_char (c : N) : option bytes :=
  if c <? 0x80 then Some [byte_of_N c]
  else if c <? 0x800 then
    Some [byte_of_N (0xC0 + c / 64); byte_of_N (0x80 + c mod 64)]
  else if in_range 0xD800 0xDFFF c then None
  else if c <? 0x10000 then
    Some [byte_of_N (0xE0 + c / 4096); byte_of_N (0x80 + (c / 64) mod 64);
          byte_of_N (0x80 + c mod 64)]
  else if c <? 0x110000 then
    Some [byte_of_N (0xF0 + c / 262144); byte_of_N (0x80 + (c / 4096) mod 64);
          byte_of_N (0x80 + (c / 64) mod 64); byte_of_N (0x80 + c mod 64)]
  else None.

Fixpoint utf8_encode (s : str) : option bytes :=
  match s with
  | [] => Some []
  | c :: r =>
    match utf8_encode_char c, utf8_encode r with
    | Some bs, Some rest => Some (bs ++ rest)
    | _, _ => None
    end
  end.

Definition encode (s : str) : result bytes :=
  match utf8_encode s with
  | Some bs => Ok bs
  | None => Raise UnicodeEncodeError
  end.

(** *** [str.rstrip(chars)]: drop the longest suffix made of [chars] *)
Definition is_nil {A} (l : list A) : bool :=
  match l with [] => true | _ => false end.

Fixpoint rstrip (chars : str) (s : str) : str :=
  match s with
  | [] => []
  | c :: r =>
    let r' := rstrip chars r in
    if is_nil r' && existsb (N.eqb c) chars then [] else c :: r'
  end.

(** *** [str.split()] with no argument

    The separator is any run of whitespace, and empty pieces are dropped.
    Whitespace is [str.isspace] on one character. *)
Definition isspace (c : N) : bool :=
  in_range 0x09 0x0D c || in_range 0x1C 0x20 c
  || (c =? 0x85) || (c =? 0xA0) || (c =? 0x1680)
  || in_range 0x2000 0x200A c || (c =? 0x2028) || (c =? 0x2029)
  || (c =? 0x202F) || (c =? 0x205F) || (c =? 0x3000).

Definition push_token (tok : str) (toks : list str) : list str :=
  if is_nil tok then toks else tok :: toks.

(** [split_from s] is the piece that starts [s] (empty when [s] starts
    with whitespace) and the pieces after it. *)
Fixpoint split_from (s : str) : str * list str :=
  match s with
  | [] => ([], [])
  | c :: r =>
    let (tok, toks) := split_from r in
    if isspace c then ([], push_token tok toks) else (c :: tok, toks)
  end.

Definition split (s : str) : list str :=
  let (tok, toks) := split_from s in push_token tok toks.

(** *** [int(s)] on a [str], base 10

    An optional ASCII sign, then decimal digits, where one underscore may
    stand between two digits.  ASCII characters are taken as they are;
    any other character counts as a digit when the Unicode database gives
    it a decimal value.  That table depends on the interpreter's Unicode
    version and is a parameter, [todecimal].  [int] also strips
    surrounding whitespace, which the pieces returned by [split] never
    have (see [split_no_space]), so this is not modelled. *)
Section Int.

Variable todecimal : N -> option N.

Definition decimal_value (c : N) : option N :=
  if c <? 128 then (if in_range 48 57 c then Some (c - 48) else None)
  else todecimal c.

Inductive scan_state : Set := AtStart | AfterDigit | AfterUnderscore.

Fixpoint scan_digits (prev : scan_state) (acc : N) (s : str) : option N :=
  match s with
  | [] => match prev with AfterDigit => Some acc | _ => None end
  | c :: r =>
    if c =? 95 then
      match prev with
      | AfterDigit => scan_digits AfterUnderscore acc r
      | _ => None
      end
    else
      match decimal_value c with
      | Some d => scan_digits AfterDigit (10 * acc + d) r
      | None => None
      end
  end.

Definition int (s : str) : result Z :=
  let negative := match s with c :: _ => c =? 45 | [] => false end in
  let signed := match s with c :: _ => (c =? 45) || (c =? 43) | [] => false end in
  match scan_digits AtStart 0 (if signed then tl s else s) with
  | Some n => Ok (if negative then (- Z.of_N n)%Z else Z.of_N n)
  | None => Raise ValueError
  end.

End Int.

(** *** [str(n)] for an [int], as the f-string [f"{accumulator}"] does *)
Fixpoint digits_from (fuel : nat) (n : N) (acc : str) : str :=
  match fuel with
  | O => acc
  | S fuel' =>
    let acc' := (48 + n mod 10) :: acc in
    if n <? 10 then acc' else digits_from fuel' (n / 10) acc'
  end.

Definition str_of_N (n : N) : str := digits_from (S (N.size_nat n)) n [].

Definition str_of_int (z : Z) : str :=
  if (z <? 0)%Z then 45 :: str_of_N (Z.abs_N z) else str_of_N (Z.abs_N z).

End Py.

(** ** The server state and its monad *)

Import Py.

(** What one [conn.recv(1024)] call does: it returns a chunk (the empty
    chunk when the peer has closed), or raises [OSError]. *)
Inductive recv_event : Type :=
| Data (data : bytes)
| RecvFails.

(** The module-level [accumulator] together with the connection object
    [conn]: [writable] is the number of [sendall] calls that still succeed
    ([None]: all of them), [sent] the payloads given to [sendall], oldest
    first, and [closed] the number of [close()] calls made so far. *)
Record state : Type := mkState {
  accumulator : Z;
  writable : option nat;
  sent : list bytes;
  closed : nat
}.

(** [accumulator = 0] at module level; a fresh connection. *)
Definition initial_state (w : option nat) : state :=
  {| accumulator := 0%Z; writable := w; sent := []; closed := 0%nat |}.

Definition M (A : Type) : Type := state -> result A * state.

Definition ret {A} (a : A) : M A := fun st => (Ok a, st).

Definition raise {A} (e : exception) : M A := fun st => (Raise e, st).

Definition bind {A B} (m : M A) (k : A -> M B) : M B :=
  fun st =>
    match m st with
    | (Ok a, st') => k a st'
    | (Raise e, st') => (Raise e, st')
    end.

Definition lift {A} (r : result A) : M A := fun st => (r, st).

Notation "x <- m ;; k" := (bind m (fun x => k))
  (at level 61, m at next level, right associativity).
Notation "m ;;; k" := (bind m (fun _ => k))
  (at level 61, right associativity).

(** [try: body except ValueError: handler] *)
Definition try_except_ValueError {A} (body handler : M A) : M A :=
  fun st =>
    match body st with
    | (Raise e, st') =>
      if isinstance_ValueError e then handler st' else (Raise e, st')
    | ok => ok
    end.

(** [try: body finally: cleanup] *)
Definition try_finally {A} (body : M A) (cleanup : M unit) : M A :=
  fun st =>
    let (r, st') := body st in
    match cleanup st' with
    | (Ok _, st'') => (r, st'')
    | (Raise e, st'') => (Raise e, st'')
    end.

Definition get_accumulator : M Z := fun st => (Ok (accumulator st), st).

Definition add_to_accumulator (z : Z) : M unit :=
  fun st =>
    (Ok tt, {| accumulator := accumulator st + z; writable := writable st;
               sent := sent st; closed := closed st |}).

(** [conn.sendall(payload)] *)
Definition sendall (payload : bytes) : M unit :=
  fun st =>
    let log := sent st ++ [payload] in
    match writable st with
    | None =>
      (Ok tt, {| accumulator := accumulator st; writable := None;
                 sent := log; closed := closed st |})
    | Some (S n) =>
      (Ok tt, {| accumulator := accumulator st; writable := Some n;
                 sent := log; closed := closed st |})
    | Some O =>
      (Raise OSError, {| accumulator := accumulator st; writable := Some O;
                         sent := log; closed := closed st |})
    end.

(** [conn.close()] *)
Definition close : M unit :=
  fun st =>
    (Ok tt, {| accumulator := accumulator st; writable := writable st;
               sent := sent st; closed := S (closed st) |}).

(** ** [handle_client] *)

Section Handler.

Variable todecimal : N -> option N.

(** [a, b = map(int, tokens)]: the targets are filled from the lazy
    iterator, so [int] runs on a piece only when it is asked for, and a
    third piece is converted before its presence is reported. *)
Definition unpack_two_ints (tokens : list str) : result (Z * Z) :=
  match tokens with
  | [] => Raise ValueError
  | t0 :: r0 =>
    match int todecimal t0 with
    | Raise e => Raise e
    | Ok a =>
      match r0 with
      | [] => Raise ValueError
      | t1 :: r1 =>
        match int todecimal t1 with
        | Raise e => Raise e
        | Ok b =>
          match r1 with
          | [] => Ok (a, b)
          | t2 :: _ =>
            match int todecimal t2 with
            | Raise e => Raise e
            | Ok _ => Raise ValueError
            end
          end
        end
      end
    end
  end.

(** The inner [try] block; its value is the local [result]. *)
Definition multiply_accumulate (message : str) : M Z :=
  try_except_ValueError
    (ab <- lift (unpack_two_ints (split message)) ;;
     let result := (fst ab * snd ab)%Z in
     add_to_accumulator result ;;;
     ret result)
    (ret 0%Z).

(** The body of the [while] loop once [data] is known to be non-empty. *)
Definition serve_chunk (data : bytes) : M unit :=
  text <- lift (decode data) ;;
  let message := rstrip [0] text in
  multiply_accumulate message ;;;
  acc <- get_accumulator ;;
  let response := str_of_int acc ++ [0] in
  payload <- lift (encode response) ;;
  sendall payload.

(** The [while True] loop over what the successive [recv] calls yield.
    A stream that has run out is a peer that has closed: [recv] returns
    the empty chunk and the loop breaks. *)
Fixpoint request_loop (stream : list recv_event) : M unit :=
  match stream with
  | [] => ret tt
  | RecvFails :: _ => raise OSError
  | Data data :: rest =>
    if is_nil data then ret tt
    else serve_chunk data ;;; request_loop rest
  end.

Definition handle_client (stream : list recv_event) : M unit :=
  try_finally (request_loop stream) close.

(** [start_server] once the socket is bound and listening: it accepts one
    connection and hands it to [handle_client], with the accumulator at
    its module-level value.  [peer_takes] is the number of writes the
    peer will accept ([None]: all of them). *)
Definition start_server (stream : list recv_event) (peer_takes : option nat)
  : result unit * state :=
  handle_client stream (initial_state peer_takes).

End Handler.

(** ** Reference notions used in the statements *)

(** The decimal digits of the Unicode database for code points beyond
    ASCII, as of Unicode 15: each block holds the digits 0 to 9 in order,
    except the mathematical digits, five runs of ten from U+1D7CE. *)
Definition decimal_blocks : list N :=
  [0x0660; 0x06F0; 0x07C0; 0x0966; 0x09E6; 0x0A66; 0x0AE6; 0x0B66; 0x0BE6;
   0x0C66; 0x0CE6; 0x0D66; 0x0DE6; 0x0E50; 0x0ED0; 0x0F20; 0x1040; 0x1090;
   0x17E0; 0x1810; 0x1946; 0x19D0; 0x1A80; 0x1A90; 0x1B50; 0x1BB0; 0x1C40;
   0x1C50; 0xA620; 0xA8D0; 0xA900; 0xA9D0; 0xA9F0; 0xAA50; 0xABF0; 0xFF10;
   0x104A0; 0x10D30; 0x11066; 0x110F0; 0x11136; 0x111D0; 0x112F0; 0x11450;
   0x114D0; 0x11650; 0x116C0; 0x11730; 0x118E0; 0x11950; 0x11C50; 0x11D50;
   0x11DA0; 0x11F50; 0x16A60; 0x16AC0; 0x16B50;
   0x1D7CE; 0x1D7D8; 0x1D7E2; 0x1D7EC; 0x1D7F6;
   0x1E140; 0x1E2F0; 0x1E4F0; 0x1E950; 0x1FBF0].

Definition unicode15_decimal (c : N) : option N :=
  match find (fun b => in_range b (b + 9) c) decimal_blocks with
  | Some b => Some (c - b)
  | None => None
  end.

(** ASCII text as code points and as bytes. *)
Definition text (s : string) : str := map Byte.to_N (list_byte_of_string s).
Definition ascii (s : string) : bytes := list_byte_of_string s.


(** "Exactly two tokens, each parseable as an integer", in the words of
    the protocol description. *)
Definition two_integers (todecimal : N -> option N) (tokens : list str)
  : option (Z * Z) :=
  match tokens with
  | [t0; t1] =>
    match int todecimal t0, int todecimal t1 with
    | Ok a, Ok b => Some (a, b)
    | _, _ => None
    end
  | _ => None
  end.

(** The request a chunk carries: its text without the trailing nulls,
    cut at whitespace. *)
Definition request_tokens (t : str) : list str := split (rstrip [0] t).

(** The valid pair a chunk carries, if any. *)
Definition operands (todecimal : N -> option N) (data : bytes)
  : option (Z * Z) :=
  match decode data with
  | Ok t => two_integers todecimal (request_tokens t)
  | Raise _ => None
  end.

(** What a chunk adds to the accumulator: the product of its pair, and 0
    when it carries none. *)
Definition contribution (todecimal : N -> option N) (data : bytes) : Z :=
  match operands todecimal data with
  | Some (a, b) => (a * b)%Z
  | None => 0%Z
  end.

(** The accumulator after each chunk of a list, in order. *)
Fixpoint running_totals (todecimal : N -> option N) (acc : Z)
  (chunks : list bytes) : list Z :=
  match chunks with
  | [] => []
  | data :: rest =>
    let acc' := (acc + contribution todecimal data)%Z in
    acc' :: running_totals todecimal acc' rest
  end.

(** The sum of the products carried by the chunks of a list. *)
Definition total (todecimal : N -> option N) (chunks : list bytes) : Z :=
  fold_right (fun data z => (contribution todecimal data + z)%Z) 0%Z chunks.

(** Base-10 notation: [s] is the decimal string of [z] when it is a ['-']
    for a negative [z] followed by the digits of [|z|], most significant
    first, without a leading zero unless the number is zero. *)
Definition horner (ds : list N) : N := fold_left (fun a d => 10 * a + d) ds 0.

Definition is_decimal_of (z : Z) (s : str) : Prop :=
  exists ds : list N,
    ds <> [] /\ Forall (fun d => d < 10) ds /\
    (hd 0 ds = 0 -> ds = [0]) /\
    horner ds = Z.abs_N z /\
    s = (if (z <? 0)%Z then [45] else []) ++ map (fun d => 48 + d) ds.

(** The bytes on the wire for an accumulator value. *)
Definition wire (z : Z) : bytes := map byte_of_N (str_of_int z) ++ [x00].

(** A chunk that can be decoded, and a chunk that is a request: some
    bytes that can be decoded. *)
Definition decodable (data : bytes) : Prop :=
  exists t, decode data = Ok t.

Definition is_request (data : bytes) : Prop :=
  data <> [] /\ decodable data.

(** ** The chunks of a session *)

Definition decodes (data : bytes) : bool :=
  match decode data with Ok _ => true | Raise _ => false end.

(** The chunks a session receives: what the successive reads return
    until the session is over, that is until the stream runs out, a read
    gives no bytes or fails, a chunk does not decode, or the peer
    refuses a write ([peer_takes] is the number of writes it takes,
    [None] for all of them). *)
Fixpoint received_chunks (stream : list recv_event)
  (peer_takes : option nat) : list bytes :=
  match stream with
  | Data data :: rest =>
    if is_nil data then []
    else
      data ::
      (if decodes data then
         match peer_takes with
         | Some O => []
         | Some (S n) => received_chunks rest (Some n)
         | None => received_chunks rest None
         end
       else [])
  | _ => []
  end.

(** The requests of a session: the received chunks that decode. *)
Definition processed_chunks (stream : list recv_event)
  (peer_takes : option nat) : list bytes :=
  filter decodes (received_chunks stream peer_takes).

(** ** Notions used in the further properties *)

(** Whitespace made of characters that take one byte each. *)
Definition blank (ws : str) : Prop :=
  Forall (fun c => isspace c = true /\ c < 128) ws.

(** The request the module docstring asks of a client: the two integers
    in decimal, a space between them, a null at the end. *)
Definition request (a b : Z) : bytes :=
  map byte_of_N (str_of_int a ++ [32] ++ str_of_int b) ++ [x00].

Definition sum_of_products (pairs : list (Z * Z)) : Z :=
  fold_right (fun ab z => (fst ab * snd ab + z)%Z) 0%Z pairs.

(** The sums after each pair of a list, from [acc]. *)
Fixpoint running_sums (acc : Z) (pairs : list (Z * Z)) : list Z :=
  match pairs with
  | [] => []
  | ab :: rest =>
    let acc' := (acc + fst ab * snd ab)%Z in
    acc' :: running_sums acc' rest
  end.

(** How a session ended, as seen from the stream: [rest] is what was
    left of it when the loop stopped, [budget] the number of writes the
    peer took at the start and [served] the number of chunks served. *)
Definition ended_by (r : result unit) (rest : list recv_event)
  (budget : option nat) (served : nat) : Prop :=
  match r with
  | Ok _ => rest = [] \/ exists rest', rest = Data [] :: rest'
  | Raise UnicodeDecodeError =>
    exists data rest',
      rest = Data data :: rest' /\ decode data = Raise UnicodeDecodeError
  | Raise OSError =>
    (exists rest', rest = RecvFails :: rest') \/
    (exists n, budget = Some n /\ served = S n)
  | Raise ValueError | Raise UnicodeEncodeError => False
  end.

(* ================================================================= *)
(** * Properties *)

(** ** Interpreter primitives *)

Lemma int_raises_ValueError td s e : int td s = Raise e -> e = ValueError.
Proof.
  unfold int.
  destruct (scan_digits td AtStart 0 _); [discriminate|].
  now intros [= <-].
Qed.

Lemma unpack_two_ints_raises td tokens e :
  unpack_two_ints td tokens = Raise e -> e = ValueError.
Proof.
  unfold unpack_two_ints.
  destruct tokens as [|t0 [|t1 [|t2 r]]];
    repeat match goal with
           | |- context [int td ?t] =>
             let E := fresh "E" in
             destruct (int td t) eqn:E;
             [|apply int_raises_ValueError in E; subst]
           end;
    intros [= <-]; reflexivity.
Qed.

Lemma unpack_two_ints_two_integers td tokens :
  unpack_two_ints td tokens =
  match two_integers td tokens with
  | Some ab => Ok ab
  | None => Raise ValueError
  end.
Proof.
  unfold unpack_two_ints, two_integers.
  destruct tokens as [|t0 [|t1 [|t2 r]]];
    repeat match goal with
           | |- context [int td ?t] =>
             let E := fresh "E" in
             destruct (int td t) eqn:E;
             [|apply int_raises_ValueError in E; subst]
           end;
    reflexivity.
Qed.

(** *** [rstrip] *)

Lemma rstrip_nul_cons c r :
  rstrip [0] (c :: r) =
  if is_nil (rstrip [0] r) && (c =? 0) then [] else c :: rstrip [0] r.
Proof. simpl. now rewrite orb_false_r. Qed.

Lemma rstrip_nul_decompose s :
  exists k, s = rstrip [0] s ++ repeat 0 k.
Proof.
  induction s as [|c r [k IH]].
  - now exists 0%nat.
  - rewrite rstrip_nul_cons.
    destruct (rstrip [0] r) as [|c' r'] eqn:E; simpl.
    + destruct (N.eqb_spec c 0) as [->|Hc].
      * exists (S k). simpl. now rewrite IH at 1.
      * exists k. now rewrite IH at 1.
    + exists k. now rewrite IH at 1.
Qed.

Lemma rstrip_nul_no_trailing s p : rstrip [0] s <> p ++ [0].
Proof.
  revert p. induction s as [|c r IH]; intros p.
  - now destruct p.
  - rewrite rstrip_nul_cons.
    destruct (rstrip [0] r) as [|c' r'] eqn:E; simpl.
    + destruct (N.eqb_spec c 0) as [->|Hc].
      * now destruct p.
      * destruct p as [|c1 [|c2 p]]; simpl; congruence.
    + destruct p as [|c1 p]; simpl; [congruence|].
      intros [= _ H]. now apply (IH p).
Qed.

Lemma rstrip_nul_app_nuls p k :
  (forall q, p <> q ++ [0]) -> rstrip [0] (p ++ repeat 0 k) = p.
Proof.
  intros Hp.
  assert (Hz : forall k, rstrip [0] (repeat 0 k) = []).
  { clear. induction k as [|k IH]; [reflexivity|].
    cbn [repeat]. rewrite rstrip_nul_cons, IH. reflexivity. }
  induction p as [|c r IH]; [apply Hz|].
  rewrite <- app_comm_cons, rstrip_nul_cons.
  destruct r as [|c' r'].
  - simpl app. rewrite Hz. simpl.
    destruct (N.eqb_spec c 0) as [->|Hc]; [|reflexivity].
    now destruct (Hp []).
  - rewrite IH.
    + reflexivity.
    + intros q Hq. apply (Hp (c :: q)). simpl. now rewrite Hq.
Qed.

(** *** [split] *)

Lemma split_from_no_space s :
  Forall (fun c => isspace c = false) (fst (split_from s)) /\
  Forall (fun tok => tok <> [] /\ Forall (fun c => isspace c = false) tok)
         (snd (split_from s)).
Proof.
  induction s as [|c r [IHt IHs]]; simpl.
  - split; constructor.
  - destruct (split_from r) as [tok toks]; simpl in *.
    destruct (isspace c) eqn:Ec; simpl.
    + split; [constructor|].
      unfold push_token. destruct tok as [|c' tok']; simpl; [assumption|].
      constructor; [split; [discriminate|assumption]|assumption].
    + split; [constructor; assumption|assumption].
Qed.

(** The pieces [split] returns are non-empty and free of whitespace. *)
Lemma split_no_space s :
  Forall (fun tok => tok <> [] /\ Forall (fun c => isspace c = false) tok)
         (split s).
Proof.
  unfold split. pose proof (split_from_no_space s) as [Ht Hs].
  destruct (split_from s) as [tok toks]; simpl in *.
  unfold push_token. destruct tok as [|c' tok']; simpl; [assumption|].
  constructor; [split; [discriminate|assumption]|assumption].
Qed.

(** *** [str] of an [int] *)

Lemma horner_snoc ds d : horner (ds ++ [d]) = 10 * horner ds + d.
Proof. unfold horner. now rewrite fold_left_app. Qed.

Lemma digits_from_spec fuel :
  forall n acc, n < 2 ^ N.of_nat (S fuel) ->
  exists ds,
    digits_from (S fuel) n acc = map (fun d => 48 + d) ds ++ acc /\
    ds <> [] /\ Forall (fun d => d < 10) ds /\
    (hd 0 ds = 0 -> ds = [0]) /\ horner ds = n.
Proof.
  induction fuel as [|fuel IH]; intros n acc Hn;
    cbn [digits_from]; destruct (N.ltb_spec n 10) as [Hlt|Hge].
  1, 3: exists [n mod 10]; rewrite (N.mod_small n 10) by assumption;
    split; [reflexivity|];
    split; [discriminate|];
    split; [constructor; [assumption|constructor]|];
    split; [simpl; now intros ->|unfold horner; simpl; lia].
  - simpl in Hn. lia.
  - assert (Hdiv : n / 10 < 2 ^ N.of_nat (S fuel)).
    { rewrite Nat2N.inj_succ, N.pow_succ_r' in Hn.
      apply N.Div0.div_lt_upper_bound. lia. }
    destruct (IH (n / 10) ((48 + n mod 10) :: acc) Hdiv)
      as (ds & Heq & Hne & Hall & Hhd & Hval).
    exists (ds ++ [n mod 10]). repeat split.
    + change (digits_from (S fuel) (n / 10) ((48 + n mod 10) :: acc) =
              map (fun d => 48 + d) (ds ++ [n mod 10]) ++ acc).
      rewrite Heq, map_app, <- app_assoc. reflexivity.
    + now destruct ds.
    + apply Forall_app. split; [assumption|].
      repeat constructor. apply N.mod_lt. lia.
    + destruct ds as [|d ds']; [congruence|]. simpl. intros Hd.
      specialize (Hhd Hd). injection Hhd as -> ->.
      unfold horner in Hval. simpl in Hval.
      assert (1 <= n / 10) by (apply N.div_le_lower_bound; lia). lia.
    + rewrite horner_snoc, Hval. symmetry. apply N.div_mod. lia.
Qed.

Lemma size_nat_gt n : n < 2 ^ N.of_nat (N.size_nat n).
Proof.
  destruct n as [|p]; [reflexivity|]. cbn [N.size_nat].
  induction p as [p IH|p IH|]; cbn [Pos.size_nat];
    rewrite ?Nat2N.inj_succ, ?N.pow_succ_r'; lia.
Qed.

Lemma str_of_N_spec n :
  exists ds,
    str_of_N n = map (fun d => 48 + d) ds /\
    ds <> [] /\ Forall (fun d => d < 10) ds /\
    (hd 0 ds = 0 -> ds = [0]) /\ horner ds = n.
Proof.
  unfold str_of_N.
  destruct (digits_from_spec (N.size_nat n) n []) as (ds & H & Hrest).
  - rewrite Nat2N.inj_succ, N.pow_succ_r'.
    pose proof (size_nat_gt n). lia.
  - exists ds. rewrite app_nil_r in H. now split.
Qed.

Lemma str_of_int_decimal z : is_decimal_of z (str_of_int z).
Proof.
  unfold is_decimal_of, str_of_int.
  destruct (str_of_N_spec (Z.abs_N z)) as (ds & H & Hne & Hall & Hhd & Hval).
  exists ds. repeat split; try assumption.
  rewrite H. now destruct (z <? 0)%Z.
Qed.

(** *** [int] reads back what [str] writes *)

Lemma digit_char_value td d :
  d < 10 -> (48 + d =? 95) = false /\ decimal_value td (48 + d) = Some d.
Proof.
  intros Hd. split.
  - apply N.eqb_neq. lia.
  - unfold decimal_value, in_range.
    destruct (N.ltb_spec (48 + d) 128); [|lia].
    destruct (N.leb_spec 48 (48 + d)); [|lia].
    destruct (N.leb_spec (48 + d) 57); [|lia].
    cbn [andb]. f_equal. lia.
Qed.

Lemma scan_digits_after_digit td ds :
  Forall (fun d => d < 10) ds ->
  forall acc,
    scan_digits td AfterDigit acc (map (fun d => 48 + d) ds) =
    Some (fold_left (fun a d => 10 * a + d) ds acc).
Proof.
  induction 1 as [|d ds Hd _ IH]; intros acc; [reflexivity|].
  cbn [map scan_digits fold_left].
  destruct (digit_char_value td d Hd) as [-> ->]. apply IH.
Qed.

Lemma scan_digits_digits td ds :
  ds <> [] -> Forall (fun d => d < 10) ds ->
  scan_digits td AtStart 0 (map (fun d => 48 + d) ds) = Some (horner ds).
Proof.
  intros Hne Hall. destruct Hall as [|d ds Hd Hall]; [congruence|].
  cbn [map scan_digits].
  destruct (digit_char_value td d Hd) as [-> ->].
  now apply scan_digits_after_digit.
Qed.

Lemma int_str_of_int td z : int td (str_of_int z) = Ok z.
Proof.
  destruct (str_of_int_decimal z) as (ds & Hne & Hall & _ & Hval & ->).
  unfold int. destruct (Z.ltb_spec z 0) as [Hneg|Hpos].
  - cbn [app tl N.eqb Pos.eqb orb].
    rewrite (scan_digits_digits td ds Hne Hall), Hval.
    f_equal. lia.
  - cbn [app]. destruct ds as [|d ds']; [congruence|].
    assert (Hd : d < 10) by now inversion Hall.
    cbn [map].
    replace (48 + d =? 45) with false by (symmetry; apply N.eqb_neq; lia).
    replace (48 + d =? 43) with false by (symmetry; apply N.eqb_neq; lia).
    cbn [orb]. change (48 + d :: map (fun d => 48 + d) ds')
      with (map (fun d => 48 + d) (d :: ds')).
    rewrite (scan_digits_digits td (d :: ds') Hne Hall), Hval.
    f_equal. lia.
Qed.

(** *** UTF-8 on ASCII text *)

Lemma byte_of_N_to_N c : c < 256 -> Byte.to_N (byte_of_N c) = c.
Proof.
  intros Hc. unfold byte_of_N.
  destruct (Byte.of_N c) as [b|] eqn:E.
  - now apply Byte.to_of_N.
  - apply Byte.of_N_None_iff in E. lia.
Qed.

Lemma utf8_encode_ascii s :
  Forall (fun c => c < 128) s -> utf8_encode s = Some (map byte_of_N s).
Proof.
  induction 1 as [|c r Hc _ IH]; [reflexivity|].
  cbn [utf8_encode map]. rewrite IH. unfold utf8_encode_char.
  destruct (N.ltb_spec c 128); [reflexivity|lia].
Qed.

Lemma utf8_decode_ascii s :
  Forall (fun c => c < 128) s ->
  utf8_decode (map Byte.to_N (map byte_of_N s)) = Some s.
Proof.
  induction 1 as [|c r Hc _ IH]; [reflexivity|].
  cbn [map utf8_decode]. rewrite byte_of_N_to_N by lia.
  destruct (N.ltb_spec c 128); [|lia]. now rewrite IH.
Qed.

Lemma decimal_is_ascii z s :
  is_decimal_of z s -> Forall (fun c => c < 128) s.
Proof.
  intros (ds & _ & Hall & _ & _ & ->).
  apply Forall_app. split.
  - destruct (z <? 0)%Z; repeat constructor.
  - apply Forall_map. eapply Forall_impl; [|exact Hall].
    intros d Hd. cbv beta in *. lia.
Qed.

Lemma response_is_ascii z : Forall (fun c => c < 128) (str_of_int z ++ [0]).
Proof.
  apply Forall_app. split.
  - apply (decimal_is_ascii z), str_of_int_decimal.
  - repeat constructor.
Qed.

Lemma encode_response z : encode (str_of_int z ++ [0]) = Ok (wire z).
Proof.
  unfold encode, wire.
  rewrite (utf8_encode_ascii _ (response_is_ascii z)), map_app.
  reflexivity.
Qed.

Lemma decode_wire z : decode (wire z) = Ok (str_of_int z ++ [0]).
Proof.
  unfold decode, wire.
  change (map byte_of_N (str_of_int z) ++ [x00])
    with (map byte_of_N (str_of_int z) ++ map byte_of_N [0]).
  rewrite <- map_app, (utf8_decode_ascii _ (response_is_ascii z)).
  reflexivity.
Qed.

(** ** The loop body *)

Lemma multiply_accumulate_run td message acc w log c :
  multiply_accumulate td message (mkState acc w log c) =
  match two_integers td (split message) with
  | Some (a, b) => (Ok (a * b)%Z, mkState (acc + a * b) w log c)
  | None => (Ok 0%Z, mkState acc w log c)
  end.
Proof.
  unfold multiply_accumulate, try_except_ValueError, bind, lift.
  rewrite unpack_two_ints_two_integers.
  destruct (two_integers td (split message)) as [[a b]|]; reflexivity.
Qed.

Lemma serve_chunk_decoded td data t acc w log c :
  decode data = Ok t ->
  serve_chunk td data (mkState acc w log c) =
  sendall (wire (acc + contribution td data))
          (mkState (acc + contribution td data) w log c).
Proof.
  intros Hdec. unfold serve_chunk, bind, lift. rewrite Hdec.
  rewrite multiply_accumulate_run.
  unfold contribution, operands, request_tokens. rewrite Hdec.
  destruct (two_integers td (split (rstrip [0] t))) as [[a b]|];
    unfold get_accumulator; cbn [accumulator];
    rewrite ?Z.add_0_r, encode_response; reflexivity.
Qed.

Lemma serve_chunk_undecodable td data st :
  utf8_decode (map Byte.to_N data) = None ->
  serve_chunk td data st = (Raise UnicodeDecodeError, st).
Proof.
  intros Hdec. unfold serve_chunk, bind, lift, decode. now rewrite Hdec.
Qed.

Lemma decode_cases data :
  (exists t, decode data = Ok t) \/
  (utf8_decode (map Byte.to_N data) = None /\
   decode data = Raise UnicodeDecodeError).
Proof.
  unfold decode. destruct (utf8_decode (map Byte.to_N data)) as [t|].
  - left. now exists t.
  - right. now split.
Qed.

Lemma is_nil_false {A} (l : list A) : l <> [] -> is_nil l = false.
Proof. now destruct l. Qed.

(** ** The running totals *)

Lemma running_totals_length td chunks :
  forall acc, List.length (running_totals td acc chunks) = List.length chunks.
Proof.
  induction chunks as [|d r IH]; intros acc; simpl; [reflexivity|].
  now rewrite IH.
Qed.

Lemma running_totals_nth td chunks :
  forall acc i, (i < List.length chunks)%nat ->
  nth_error (running_totals td acc chunks) i =
  Some (acc + total td (firstn (S i) chunks))%Z.
Proof.
  induction chunks as [|d r IH]; intros acc i Hi; simpl in Hi; [lia|].
  destruct i as [|i].
  - cbn. destruct r; cbn; f_equal; lia.
  - cbn [running_totals nth_error]. rewrite IH by lia.
    cbn [firstn total fold_right]. f_equal.
    change (fold_right (fun data z => (contribution td data + z)%Z) 0%Z
                       (firstn (S i) r))
      with (total td (firstn (S i) r)).
    lia.
Qed.

(** ** The request loop *)

Lemma request_loop_step td data stream acc w log c :
  is_request data ->
  let acc1 := (acc + contribution td data)%Z in
  request_loop td (Data data :: stream) (mkState acc w log c) =
  match w with
  | Some O => (Raise OSError, mkState acc1 (Some O) (log ++ [wire acc1]) c)
  | Some (S n) =>
    request_loop td stream (mkState acc1 (Some n) (log ++ [wire acc1]) c)
  | None => request_loop td stream (mkState acc1 None (log ++ [wire acc1]) c)
  end.
Proof.
  intros [Hne [t Hdec]] acc1. cbn [request_loop].
  rewrite (is_nil_false data Hne). unfold bind.
  rewrite (serve_chunk_decoded td data t acc w log c Hdec). fold acc1.
  now destruct w as [[|n]|].
Qed.

Lemma request_loop_undecodable td data stream st :
  utf8_decode (map Byte.to_N data) = None ->
  request_loop td (Data data :: stream) st = (Raise UnicodeDecodeError, st).
Proof.
  intros Hdec. cbn [request_loop].
  destruct data as [|b data]; [discriminate|]. cbn [is_nil]. unfold bind.
  now rewrite serve_chunk_undecodable.
Qed.

(** Whatever the stream, the loop serves a prefix of it made of
    requests; each of them added its contribution and had the total at
    that point handed to [sendall]. *)
Lemma request_loop_trace td stream :
  forall acc w log c,
  exists served rest r w',
    stream = map Data served ++ rest /\
    Forall is_request served /\
    request_loop td stream (mkState acc w log c) =
    (r, mkState (acc + total td served) w'
                (log ++ map wire (running_totals td acc served)) c).
Proof.
  induction stream as [|ev stream IH]; intros acc w log c.
  - exists [], [], (Ok tt), w. cbn. now rewrite Z.add_0_r, app_nil_r.
  - assert (Hstop : forall r,
      request_loop td (ev :: stream) (mkState acc w log c) =
        (r, mkState acc w log c) ->
      exists served rest r w',
        ev :: stream = map Data served ++ rest /\
        Forall is_request served /\
        request_loop td (ev :: stream) (mkState acc w log c) =
        (r, mkState (acc + total td served) w'
                    (log ++ map wire (running_totals td acc served)) c)).
    { intros r H. exists [], (ev :: stream), r, w.
      cbn [map app total fold_right running_totals].
      now rewrite Z.add_0_r, app_nil_r. }
    destruct ev as [data|]; [|now apply (Hstop (Raise OSError))].
    destruct data as [|b data']; [now apply (Hstop (Ok tt))|].
    set (data := b :: data') in *.
    destruct (decode_cases data) as [[t Hdec]|[Hnone Hdec]].
    + assert (Hreq : is_request data) by (split; [discriminate|now exists t]).
      pose proof (request_loop_step td data stream acc w log c Hreq) as Hstep.
      cbv zeta in Hstep. set (acc1 := (acc + contribution td data)%Z) in *.
      destruct w as [[|n]|].
      * exists [data], stream, (Raise OSError), (Some 0%nat).
        split; [reflexivity|]. split; [now constructor|].
        rewrite Hstep. cbn. fold acc1. now rewrite Z.add_0_r.
      * destruct (IH acc1 (Some n) (log ++ [wire acc1]) c)
          as (served & rest & r & w' & -> & Hall & Hrun).
        exists (data :: served), rest, r, w'.
        split; [reflexivity|]. split; [now constructor|].
        rewrite Hstep, Hrun. cbn. fold acc1.
        now rewrite <- app_assoc, Z.add_assoc.
      * destruct (IH acc1 None (log ++ [wire acc1]) c)
          as (served & rest & r & w' & -> & Hall & Hrun).
        exists (data :: served), rest, r, w'.
        split; [reflexivity|]. split; [now constructor|].
        rewrite Hstep, Hrun. cbn. fold acc1.
        now rewrite <- app_assoc, Z.add_assoc.
    + apply (Hstop (Raise UnicodeDecodeError)).
      now apply request_loop_undecodable.
Qed.

(** A stream of requests to a peer that takes every write is served to
    the end. *)
Lemma request_loop_all_served td chunks :
  Forall is_request chunks ->
  forall acc log c,
    request_loop td (map Data chunks) (mkState acc None log c) =
    (Ok tt, mkState (acc + total td chunks) None
                    (log ++ map wire (running_totals td acc chunks)) c).
Proof.
  induction 1 as [|data chunks Hreq _ IH]; intros acc log c.
  - cbn. now rewrite Z.add_0_r, app_nil_r.
  - cbn [map]. rewrite (request_loop_step td data _ acc None log c Hreq).
    cbv zeta. rewrite IH. cbn.
    now rewrite <- app_assoc, Z.add_assoc.
Qed.

(** The loop reads the accumulator and the peer's willingness to take
    writes, and nothing else of the state: it only appends to the log
    and leaves the count of [close] calls alone. *)
Lemma request_loop_frame td stream :
  forall acc w log1 c1 log2 c2,
  exists r acc' w' out,
    request_loop td stream (mkState acc w log1 c1) =
      (r, mkState acc' w' (log1 ++ out) c1) /\
    request_loop td stream (mkState acc w log2 c2) =
      (r, mkState acc' w' (log2 ++ out) c2).
Proof.
  induction stream as [|ev stream IH]; intros acc w log1 c1 log2 c2.
  - exists (Ok tt), acc, w, []. cbn. now rewrite !app_nil_r.
  - assert (Hstop : forall r,
      (forall log c, request_loop td (ev :: stream) (mkState acc w log c) =
                     (r, mkState acc w log c)) ->
      exists r acc' w' out,
        request_loop td (ev :: stream) (mkState acc w log1 c1) =
          (r, mkState acc' w' (log1 ++ out) c1) /\
        request_loop td (ev :: stream) (mkState acc w log2 c2) =
          (r, mkState acc' w' (log2 ++ out) c2)).
    { intros r H. exists r, acc, w, []. now rewrite !app_nil_r, !H. }
    destruct ev as [data|]; [|now apply (Hstop (Raise OSError))].
    destruct data as [|b data']; [now apply (Hstop (Ok tt))|].
    set (data := b :: data') in *.
    destruct (decode_cases data) as [[t Hdec]|[Hnone Hdec]].
    + assert (Hreq : is_request data) by (split; [discriminate|now exists t]).
      rewrite !(request_loop_step td data stream acc w _ _ Hreq). cbv zeta.
      set (acc1 := (acc + contribution td data)%Z).
      destruct w as [[|n]|].
      * now exists (Raise OSError), acc1, (Some 0%nat), [wire acc1].
      * destruct (IH acc1 (Some n) (log1 ++ [wire acc1]) c1
                     (log2 ++ [wire acc1]) c2)
          as (r & acc' & w' & out & H1 & H2).
        exists r, acc', w', (wire acc1 :: out).
        rewrite H1, H2, <- !app_assoc. now split.
      * destruct (IH acc1 None (log1 ++ [wire acc1]) c1
                     (log2 ++ [wire acc1]) c2)
          as (r & acc' & w' & out & H1 & H2).
        exists r, acc', w', (wire acc1 :: out).
        rewrite H1, H2, <- !app_assoc. now split.
    + apply (Hstop (Raise UnicodeDecodeError)). intros log c.
      now apply request_loop_undecodable.
Qed.

Lemma handle_client_request_loop td stream st :
  handle_client td stream st =
  (fst (request_loop td stream st),
   snd (close (snd (request_loop td stream st)))).
Proof.
  unfold handle_client, try_finally.
  now destruct (request_loop td stream st) as [r st'].
Qed.

Lemma decimal_no_nul z s : is_decimal_of z s -> ~ In 0 s.
Proof.
  intros (ds & _ & _ & _ & _ & ->) Hin.
  apply in_app_or in Hin. destruct Hin as [Hin|Hin].
  - destruct (z <? 0)%Z; simpl in Hin; [|assumption].
    destruct Hin as [Hin|[]]. discriminate.
  - apply in_map_iff in Hin. destruct Hin as (d & Hd & _). lia.
Qed.

Lemma decode_raise_undecodable data e :
  decode data = Raise e -> utf8_decode (map Byte.to_N data) = None.
Proof.
  unfold decode. now destruct (utf8_decode (map Byte.to_N data)).
Qed.

(** ** Trailing nulls, in bytes and in text *)

Lemma utf8_decode_app_bound n :
  forall bs, (List.length bs <= n)%nat ->
  forall t, utf8_decode bs = Some t ->
  forall bs' t', utf8_decode bs' = Some t' ->
  utf8_decode (bs ++ bs') = Some (t ++ t').
Proof.
  induction n as [|n IH]; intros bs Hlen t Hbs bs' t' Hbs'.
  - destruct bs; [|simpl in Hlen; lia]. cbn in Hbs. injection Hbs as <-.
    exact Hbs'.
  - destruct bs as [|b0 r0].
    { cbn in Hbs. injection Hbs as <-. exact Hbs'. }
    cbn [List.length] in Hlen.
    cbn [utf8_decode app] in Hbs |- *.
    destruct (b0 <? 128).
    { destruct (utf8_decode r0) as [t0|] eqn:E0; [|discriminate].
      cbn in Hbs. injection Hbs as <-.
      rewrite (IH r0 ltac:(lia) t0 E0 bs' t' Hbs'). reflexivity. }
    destruct (in_range 194 223 b0).
    { destruct r0 as [|b1 r1]; [discriminate|]. cbn [app List.length] in *.
      destruct (in_range 128 191 b1); [|discriminate].
      destruct (utf8_decode r1) as [t1|] eqn:E1; [|discriminate].
      cbn in Hbs. injection Hbs as <-.
      rewrite (IH r1 ltac:(lia) t1 E1 bs' t' Hbs'). reflexivity. }
    destruct (in_range 224 239 b0).
    { destruct r0 as [|b1 [|b2 r2]]; try discriminate.
      cbn [app List.length] in *.
      match type of Hbs with (if ?c then _ else _) = _ => destruct c end;
        [|discriminate].
      destruct (utf8_decode r2) as [t2|] eqn:E2; [|discriminate].
      cbn in Hbs. injection Hbs as <-.
      rewrite (IH r2 ltac:(lia) t2 E2 bs' t' Hbs'). reflexivity. }
    destruct (in_range 240 244 b0); [|discriminate].
    destruct r0 as [|b1 [|b2 [|b3 r3]]]; try discriminate.
    cbn [app List.length] in *.
    match type of Hbs with (if ?c then _ else _) = _ => destruct c end;
      [|discriminate].
    destruct (utf8_decode r3) as [t3|] eqn:E3; [|discriminate].
    cbn in Hbs. injection Hbs as <-.
    rewrite (IH r3 ltac:(lia) t3 E3 bs' t' Hbs'). reflexivity.
Qed.

Lemma utf8_decode_nuls k :
  utf8_decode (map Byte.to_N (repeat x00 k)) = Some (repeat 0 k).
Proof.
  induction k as [|k IH]; [reflexivity|].
  cbn [repeat map]. change (Byte.to_N x00) with 0.
  cbn [utf8_decode]. change (0 <? 128) with true. cbv iota.
  now rewrite IH.
Qed.

(** Null bytes after a chunk decode to null characters after its text. *)
Lemma decode_app_nuls data t k :
  decode data = Ok t ->
  decode (data ++ repeat x00 k) = Ok (t ++ repeat 0 k).
Proof.
  unfold decode. intros Hdec.
  destruct (utf8_decode (map Byte.to_N data)) as [t0|] eqn:E; [|discriminate].
  injection Hdec as ->. rewrite map_app.
  now rewrite (utf8_decode_app_bound _ _ (le_n _) t E _ _
                 (utf8_decode_nuls k)).
Qed.

Lemma rstrip_nul_more_nuls (t : str) k :
  rstrip [0] (t ++ repeat 0 k) = rstrip [0] t.
Proof.
  destruct (rstrip_nul_decompose t) as [j Hj].
  rewrite Hj at 1. rewrite <- app_assoc, <- repeat_app.
  apply rstrip_nul_app_nuls. intros q. apply rstrip_nul_no_trailing.
Qed.

(** ** What a session has processed *)

Lemma decodes_true data t : decode data = Ok t -> decodes data = true.
Proof. unfold decodes. now intros ->. Qed.

Lemma decodes_false data :
  utf8_decode (map Byte.to_N data) = None -> decodes data = false.
Proof. unfold decodes, decode. now intros ->. Qed.

(** The loop ends with the accumulator raised by what the processed
    chunks carry, one response handed to [sendall] for each. *)
Lemma request_loop_processed td stream :
  forall acc w log c,
  exists r w',
    request_loop td stream (mkState acc w log c) =
    (r, mkState (acc + total td (processed_chunks stream w)) w'
          (log ++ map wire (running_totals td acc (processed_chunks stream w)))
          c).
Proof.
  induction stream as [|ev stream IH]; intros acc w log c.
  - exists (Ok tt), w. cbn. now rewrite Z.add_0_r, app_nil_r.
  - assert (Hstop : forall r,
      request_loop td (ev :: stream) (mkState acc w log c) =
        (r, mkState acc w log c) ->
      processed_chunks (ev :: stream) w = [] ->
      exists r w',
        request_loop td (ev :: stream) (mkState acc w log c) =
        (r, mkState (acc + total td (processed_chunks (ev :: stream) w)) w'
              (log ++ map wire
                 (running_totals td acc (processed_chunks (ev :: stream) w)))
              c)).
    { intros r H ->. exists r, w. cbn. now rewrite Z.add_0_r, app_nil_r. }
    destruct ev as [data|]; [|now apply (Hstop (Raise OSError))].
    destruct data as [|b data']; [now apply (Hstop (Ok tt))|].
    set (data := b :: data') in *.
    destruct (decode_cases data) as [[t Hdec]|[Hnone Hdec]].
    + assert (Hreq : is_request data) by (split; [discriminate|now exists t]).
      pose proof (request_loop_step td data stream acc w log c Hreq) as Hstep.
      cbv zeta in Hstep. set (acc1 := (acc + contribution td data)%Z) in *.
      assert (Hproc : processed_chunks (Data data :: stream) w =
                      data :: match w with
                              | Some O => []
                              | Some (S n) => processed_chunks stream (Some n)
                              | None => processed_chunks stream None
                              end).
      { unfold processed_chunks. cbn [received_chunks is_nil data filter].
        fold data. rewrite (decodes_true data t Hdec).
        now destruct w as [[|n]|]. }
      rewrite Hproc, Hstep. cbn [total fold_right running_totals map].
      fold acc1.
      destruct w as [[|n]|].
      * exists (Raise OSError), (Some 0%nat). cbn.
        now rewrite Z.add_0_r.
      * destruct (IH acc1 (Some n) (log ++ [wire acc1]) c)
          as (r & w' & Hrun).
        exists r, w'. rewrite Hrun.
        fold (total td (processed_chunks stream (Some n))).
        now rewrite <- app_assoc, Z.add_assoc.
      * destruct (IH acc1 None (log ++ [wire acc1]) c) as (r & w' & Hrun).
        exists r, w'. rewrite Hrun.
        fold (total td (processed_chunks stream None)).
        now rewrite <- app_assoc, Z.add_assoc.
    + apply (Hstop (Raise UnicodeDecodeError)).
      * now apply request_loop_undecodable.
      * unfold processed_chunks. cbn [received_chunks is_nil data filter].
        fold data. now rewrite (decodes_false data Hnone).
Qed.

Lemma wire_is_decimal z :
  exists s, is_decimal_of z s /\ wire z = map byte_of_N s ++ [x00].
Proof.
  exists (str_of_int z). split; [apply str_of_int_decimal|reflexivity].
Qed.

(* ================================================================= *)
(** * The claims *)

Section Claims.

Variable todecimal : N -> option N.

(** C1.  In the session [start_server] runs, which starts with the
    accumulator at 0, the requests are the received chunks that decode.
    When the handler is done the accumulator is the sum, over all of
    them, of the product of the chunk's pair, a chunk without a valid
    pair counting for 0; one response was handed to [sendall] for each of
    them, and the i-th is the decimal string of the sum over the first i
    requests, followed by a null. *)
Theorem accumulator_is_sum_of_products (stream : list recv_event)
  (w : option nat) :
  let processed := processed_chunks stream w in
  let st' := snd (start_server todecimal stream w) in
  accumulator st' = total todecimal processed /\
  List.length (sent st') = List.length processed /\
  forall i, (i < List.length processed)%nat ->
    exists s,
      is_decimal_of (total todecimal (firstn (S i) processed)) s /\
      nth_error (sent st') i = Some (map byte_of_N s ++ [x00]).
Proof.
  intros processed st'. subst st'.
  destruct (request_loop_processed todecimal stream 0%Z w [] 0%nat)
    as (r & w' & Hrun).
  unfold start_server. rewrite handle_client_request_loop.
  unfold initial_state. rewrite Hrun. fold processed.
  cbn [snd close accumulator sent app]. split; [lia|].
  rewrite length_map, running_totals_length. split; [reflexivity|].
  intros i Hi. rewrite nth_error_map, running_totals_nth by assumption.
  cbn [option_map]. rewrite Z.add_0_l.
  destruct (wire_is_decimal (total todecimal (firstn (S i) processed)))
    as (s & Hs & ->).
  now exists s.
Qed.

(** C2.  A non-empty chunk whose text, once decoded and stripped of its
    trailing nulls, is not exactly two tokens that [int] accepts: the
    whole loop body amounts to handing one payload to [sendall], the
    decimal string of the unchanged total followed by a null.  The
    accumulator and the connection stay as they were, nothing is raised
    unless the write itself fails, and the loop goes on to the next
    read. *)
Theorem malformed_request_keeps_total (data : bytes) (t : str) (st : state)
  (rest : list recv_event) :
  data <> [] ->
  decode data = Ok t ->
  two_integers todecimal (request_tokens t) = None ->
  (exists s,
     is_decimal_of (accumulator st) s /\
     wire (accumulator st) = map byte_of_N s ++ [x00]) /\
  serve_chunk todecimal data st = sendall (wire (accumulator st)) st /\
  accumulator (snd (serve_chunk todecimal data st)) = accumulator st /\
  closed (snd (serve_chunk todecimal data st)) = closed st /\
  sent (snd (serve_chunk todecimal data st)) =
    sent st ++ [wire (accumulator st)] /\
  (writable st <> Some 0%nat ->
   fst (serve_chunk todecimal data st) = Ok tt /\
   request_loop todecimal (Data data :: rest) st =
   request_loop todecimal rest (snd (serve_chunk todecimal data st))).
Proof.
  intros Hne Hdec Hbad. split; [apply wire_is_decimal|].
  destruct st as [acc w log c].
  assert (Hzero : contribution todecimal data = 0%Z).
  { unfold contribution, operands. now rewrite Hdec, Hbad. }
  assert (Hbody : serve_chunk todecimal data (mkState acc w log c) =
                  sendall (wire acc) (mkState acc w log c)).
  { rewrite (serve_chunk_decoded todecimal data t acc w log c Hdec).
    now rewrite Hzero, Z.add_0_r. }
  split; [exact Hbody|].
  cbn [request_loop]. rewrite (is_nil_false data Hne). unfold bind.
  rewrite Hbody. unfold sendall. cbn [accumulator writable sent closed].
  destruct w as [[|n]|]; cbn [fst snd accumulator sent closed];
    do 3 (split; [reflexivity|]); intros Hw;
    first [congruence | split; reflexivity].
Qed.

(** C3, as amended.  For a non-empty chunk that decodes as UTF-8, the loop
    body hands exactly one payload to [sendall]: the UTF-8 encoding of the
    decimal string of the accumulator as it stands after the update (with
    a leading ['-'] when negative), which holds no null, followed by one
    null byte. *)
Theorem response_is_decimal_total (data : bytes) (st : state)
  (rest : list recv_event) :
  data <> [] ->
  decodable data ->
  request_loop todecimal (Data data :: rest) st =
    bind (serve_chunk todecimal data)
         (fun _ => request_loop todecimal rest) st /\
  exists s,
    is_decimal_of (accumulator (snd (serve_chunk todecimal data st))) s /\
    ~ In 0 s /\
    encode (s ++ [0]) = Ok (map byte_of_N s ++ [x00]) /\
    sent (snd (serve_chunk todecimal data st)) =
      sent st ++ [map byte_of_N s ++ [x00]].
Proof.
  intros Hne [t Hdec]. split.
  - cbn [request_loop]. now rewrite (is_nil_false data Hne).
  - destruct st as [acc w log c].
    rewrite (serve_chunk_decoded todecimal data t acc w log c Hdec).
    set (acc1 := (acc + contribution todecimal data)%Z).
    exists (str_of_int acc1).
    assert (Hacc : accumulator (snd (sendall (wire acc1)
                     (mkState acc1 w log c))) = acc1)
      by now destruct w as [[|n]|].
    rewrite Hacc. split; [apply str_of_int_decimal|].
    split; [apply (decimal_no_nul acc1), str_of_int_decimal|].
    split; [apply encode_response|].
    now destruct w as [[|n]|].
Qed.

(** C4.  One request per chunk, whatever the chunk holds: a stream of
    non-empty decodable chunks to a peer that takes every write gets one
    response per chunk, each chunk counting for what it carries on its
    own.  So a message cut in two chunks is not put back together (each
    half is a malformed request), and two messages in one chunk are one
    malformed request. *)
Theorem one_request_per_chunk (chunks : list bytes) (acc : Z)
  (log : list bytes) (c : nat) :
  Forall is_request chunks ->
  handle_client todecimal (map Data chunks) (mkState acc None log c) =
    (Ok tt,
     mkState (acc + total todecimal chunks) None
             (log ++ map wire (running_totals todecimal acc chunks)) (S c)) /\
  List.length (map wire (running_totals todecimal acc chunks)) =
    List.length chunks /\
  contribution todecimal (ascii "3 4" ++ [x00]) = 12%Z /\
  running_totals todecimal acc [ascii "3 "; ascii "4" ++ [x00]] = [acc; acc] /\
  contribution todecimal (ascii "2 5" ++ [x00]) = 10%Z /\
  running_totals todecimal acc [ascii "3 4" ++ [x00] ++ ascii "2 5" ++ [x00]]
    = [acc].
Proof.
  intros Hall. split.
  - rewrite handle_client_request_loop.
    now rewrite (request_loop_all_served todecimal chunks Hall).
  - split; [now rewrite length_map, running_totals_length|].
    split; [now vm_compute|].
    split; [cbn [running_totals]|split; [now vm_compute|cbn [running_totals]]].
    + replace (contribution todecimal (ascii "3 ")) with 0%Z by now vm_compute.
      replace (contribution todecimal (ascii "4" ++ [x00])) with 0%Z
        by now vm_compute.
      now rewrite !Z.add_0_r.
    + replace (contribution todecimal
                 (ascii "3 4" ++ [x00] ++ ascii "2 5" ++ [x00]))
        with 0%Z by now vm_compute.
      now rewrite Z.add_0_r.
Qed.

(** C5.  A chunk that is not valid UTF-8 ends the session: the handler
    raises [UnicodeDecodeError], sends nothing for the chunk, leaves the
    accumulator alone, reads no further, and has closed the connection. *)
Theorem undecodable_chunk_ends_session (data : bytes)
  (rest : list recv_event) (st : state) :
  decode data = Raise UnicodeDecodeError ->
  handle_client todecimal (Data data :: rest) st =
    (Raise UnicodeDecodeError,
     mkState (accumulator st) (writable st) (sent st) (S (closed st))).
Proof.
  intros Hdec. apply decode_raise_undecodable in Hdec.
  rewrite handle_client_request_loop.
  now rewrite (request_loop_undecodable todecimal data rest st Hdec).
Qed.

(** C6.  A read of zero bytes ends the loop and the handler returns
    normally; and however the handler ends, [close] has been called once
    more than before. *)
Theorem connection_closed_exactly_once :
  (forall stream st,
     closed (snd (handle_client todecimal stream st)) = S (closed st)) /\
  (forall st,
     handle_client todecimal [] st =
     (Ok tt, mkState (accumulator st) (writable st) (sent st)
                     (S (closed st)))) /\
  (forall rest st,
     handle_client todecimal (Data [] :: rest) st =
     (Ok tt, mkState (accumulator st) (writable st) (sent st)
                     (S (closed st)))).
Proof.
  split; [|split; reflexivity].
  intros stream [acc w log c]. rewrite handle_client_request_loop.
  destruct (request_loop_trace todecimal stream acc w log c)
    as (served & rest & r & w' & _ & _ & ->).
  reflexivity.
Qed.

(** C7.  The handler parses the text of a chunk without its trailing run
    of nulls, and with every other null in place.  Write the decoded text
    as [m] followed by [k] nulls, where [m] does not end with a null:
    the loop body splits and converts exactly [m], adds the product of
    its pair if it has one, and sends the total.  So nulls before another
    character stay in the tokens; and null bytes added at the end of a
    chunk change nothing to what the body does. *)
Theorem handler_strips_trailing_nuls (data : bytes) (t m : str) (k : nat)
  (acc : Z) (w : option nat) (log : list bytes) (c : nat) :
  decode data = Ok t ->
  t = m ++ repeat 0 k ->
  (forall q, m <> q ++ [0]) ->
  let delta := match two_integers todecimal (split m) with
               | Some (a, b) => (a * b)%Z
               | None => 0%Z
               end in
  serve_chunk todecimal data (mkState acc w log c) =
    sendall (wire (acc + delta)) (mkState (acc + delta) w log c) /\
  forall j,
    serve_chunk todecimal (data ++ repeat x00 j) (mkState acc w log c) =
    serve_chunk todecimal data (mkState acc w log c).
Proof.
  intros Hdec Ht Hm delta.
  assert (Hstrip : forall j, rstrip [0] (t ++ repeat 0 j) = m).
  { intros j. rewrite rstrip_nul_more_nuls, Ht.
    now apply rstrip_nul_app_nuls. }
  assert (Hcontr : forall j,
            contribution todecimal (data ++ repeat x00 j) = delta).
  { intros j. unfold contribution, operands, request_tokens.
    now rewrite (decode_app_nuls data t j Hdec), Hstrip. }
  assert (Hbody : forall j,
            serve_chunk todecimal (data ++ repeat x00 j)
                        (mkState acc w log c) =
            sendall (wire (acc + delta)) (mkState (acc + delta) w log c)).
  { intros j.
    rewrite (serve_chunk_decoded todecimal _ _ acc w log c
               (decode_app_nuls data t j Hdec)).
    now rewrite Hcontr. }
  assert (H0 : serve_chunk todecimal data (mkState acc w log c) =
               sendall (wire (acc + delta)) (mkState (acc + delta) w log c)).
  { specialize (Hbody 0%nat). cbn [repeat] in Hbody.
    now rewrite app_nil_r in Hbody. }
  split; [exact H0|]. intros j. now rewrite Hbody, H0.
Qed.

(** C8.  From an accumulator at 0, the request "-3 4" followed by a null
    carries the pair (-3, 4), brings the accumulator to -12 and is
    answered with "-12" followed by a null. *)
Theorem negative_operands (w : option nat) :
  operands todecimal (ascii "-3 4" ++ [x00]) = Some ((-3)%Z, 4%Z) /\
  accumulator
    (snd (handle_client todecimal [Data (ascii "-3 4" ++ [x00])]
                        (initial_state w))) = (-12)%Z /\
  sent
    (snd (handle_client todecimal [Data (ascii "-3 4" ++ [x00])]
                        (initial_state w))) = [ascii "-12" ++ [x00]].
Proof.
  split; [now vm_compute|].
  destruct w as [[|n]|]; split; now vm_compute.
Qed.

(** C9.  The accumulator is 0 in the initial state only by
    initialisation.  One pass of the loop body leaves it as it is or adds
    the product of the chunk's pair; [close] does not touch it; and over
    a whole session the handler adds to whatever value it started from. *)
Theorem accumulator_never_reset :
  (forall w, accumulator (initial_state w) = 0%Z) /\
  (forall data st,
     match operands todecimal data with
     | Some (a, b) =>
       accumulator (snd (serve_chunk todecimal data st)) =
       (accumulator st + a * b)%Z
     | None =>
       accumulator (snd (serve_chunk todecimal data st)) = accumulator st
     end) /\
  (forall st, accumulator (snd (close st)) = accumulator st) /\
  (forall stream st,
     exists served rest,
       stream = map Data served ++ rest /\
       accumulator (snd (handle_client todecimal stream st)) =
       (accumulator st + total todecimal served)%Z).
Proof.
  split; [reflexivity|]. split; [|split; [reflexivity|]].
  - intros data [acc w log c].
    destruct (decode_cases data) as [[t Hdec]|[Hnone Hdec]].
    + rewrite (serve_chunk_decoded todecimal data t acc w log c Hdec).
      unfold contribution.
      destruct (operands todecimal data) as [[a b]|];
        destruct w as [[|n]|]; cbn; lia.
    + rewrite (serve_chunk_undecodable todecimal data _ Hnone).
      unfold operands. now rewrite Hdec.
  - intros stream [acc w log c].
    destruct (request_loop_trace todecimal stream acc w log c)
      as (served & rest & r & w' & Hsplit & _ & Hrun).
    exists served, rest. split; [assumption|].
    rewrite handle_client_request_loop, Hrun. reflexivity.
Qed.

(** C10.  What a session sends and where it leaves the accumulator depend
    on the accumulator it starts from and on the chunks it receives, and
    on nothing else: two runs from the same accumulator that receive the
    same chunks hand the same responses to [sendall] and end with the
    same accumulator, whatever else differs between them (what the
    stream holds beyond the chunks received, how many writes the peer
    takes, how each session comes to its end, the rest of the state). *)
Theorem handle_client_deterministic (stream1 stream2 : list recv_event)
  (st1 st2 : state) :
  accumulator st1 = accumulator st2 ->
  received_chunks stream1 (writable st1) =
    received_chunks stream2 (writable st2) ->
  accumulator (snd (handle_client todecimal stream1 st1)) =
    accumulator (snd (handle_client todecimal stream2 st2)) /\
  exists out,
    sent (snd (handle_client todecimal stream1 st1)) = sent st1 ++ out /\
    sent (snd (handle_client todecimal stream2 st2)) = sent st2 ++ out.
Proof.
  destruct st1 as [acc w1 log1 c1], st2 as [acc2 w2 log2 c2].
  cbn [accumulator writable sent]. intros <- Hrecv.
  destruct (request_loop_processed todecimal stream1 acc w1 log1 c1)
    as (r1 & w1' & H1).
  destruct (request_loop_processed todecimal stream2 acc w2 log2 c2)
    as (r2 & w2' & H2).
  rewrite !handle_client_request_loop, H1, H2.
  unfold processed_chunks. rewrite Hrecv.
  cbn [snd close accumulator sent]. split; [reflexivity|].
  now eexists.
Qed.

End Claims.

(* ================================================================= *)
(** * Concrete sessions

    Runs with the decimal digits of Unicode 15. *)

(** The session of the protocol description: 3*4, then 2*5, then a
    malformed request, then the end of the stream. *)
Example session_12_22_22 :
  handle_client unicode15_decimal
    [Data (ascii "3 4" ++ [x00]); Data (ascii "2 5" ++ [x00]);
     Data (ascii "foo" ++ [x00])]
    (initial_state None) =
  (Ok tt,
   mkState 22 None
     [ascii "12" ++ [x00]; ascii "22" ++ [x00]; ascii "22" ++ [x00]] 1).
Proof. now vm_compute. Qed.

(** Operands written with digits of other scripts are accepted by [int],
    and a third token makes the request malformed. *)
Example operands_other_scripts :
  operands unicode15_decimal
    (byte_of_N 0xD9 :: byte_of_N 0xA3 :: ascii " 1_0" ++ [x00]) =
    Some (3%Z, 10%Z) /\
  operands unicode15_decimal (ascii "1 2 3" ++ [x00]) = None /\
  operands unicode15_decimal (ascii "1 2_" ++ [x00]) = None.
Proof. now vm_compute. Qed.

Lemma malformed_request_keeps_total_witness :
  ascii "foo" ++ [x00] <> [] /\
  decode (ascii "foo" ++ [x00]) = Ok (text "foo" ++ [0]) /\
  two_integers unicode15_decimal (request_tokens (text "foo" ++ [0])) = None /\
  sent (snd (serve_chunk unicode15_decimal (ascii "foo" ++ [x00])
                         (mkState 12 None [ascii "12" ++ [x00]] 0))) =
    [ascii "12" ++ [x00]; ascii "12" ++ [x00]].
Proof.
  split; [discriminate|]. split; [reflexivity|]. split; [reflexivity|].
  apply (malformed_request_keeps_total unicode15_decimal
           (ascii "foo" ++ [x00]) (text "foo" ++ [0])
           (mkState 12 None [ascii "12" ++ [x00]] 0) []);
    [discriminate|reflexivity|reflexivity].
Defined.

(** A non-empty chunk that is not valid UTF-8 gets no response at all:
    nothing is handed to [sendall], by the loop body or by the handler. *)
Lemma undecodable_chunk_gets_no_response :
  [xff] <> [] /\
  sent (snd (serve_chunk unicode15_decimal [xff] (initial_state None))) = [] /\
  handle_client unicode15_decimal [Data [xff]] (initial_state None) =
    (Raise UnicodeDecodeError, mkState 0 None [] 1).
Proof. split; [discriminate|]. split; reflexivity. Qed.

Lemma response_is_decimal_total_witness :
  ascii "-3 4" ++ [x00] <> [] /\
  decodable (ascii "-3 4" ++ [x00]) /\
  exists s,
    is_decimal_of
      (accumulator (snd (serve_chunk unicode15_decimal (ascii "-3 4" ++ [x00])
                                     (initial_state None)))) s /\
    ~ In 0 s /\
    encode (s ++ [0]) = Ok (map byte_of_N s ++ [x00]) /\
    sent (snd (serve_chunk unicode15_decimal (ascii "-3 4" ++ [x00])
                           (initial_state None))) =
      sent (initial_state None) ++ [map byte_of_N s ++ [x00]].
Proof.
  split; [discriminate|].
  split; [exists (text "-3 4" ++ [0]); reflexivity|].
  apply (response_is_decimal_total unicode15_decimal
           (ascii "-3 4" ++ [x00]) (initial_state None) []).
  - discriminate.
  - exists (text "-3 4" ++ [0]). reflexivity.
Defined.

Lemma one_request_per_chunk_witness :
  Forall is_request [ascii "3 "; ascii "4" ++ [x00]] /\
  handle_client unicode15_decimal
    (map Data [ascii "3 "; ascii "4" ++ [x00]]) (mkState 0 None [] 0) =
  (Ok tt,
   mkState (0 + total unicode15_decimal [ascii "3 "; ascii "4" ++ [x00]]) None
     ([] ++ map wire (running_totals unicode15_decimal 0
                        [ascii "3 "; ascii "4" ++ [x00]])) 1).
Proof.
  assert (H : Forall is_request [ascii "3 "; ascii "4" ++ [x00]]).
  { repeat constructor; try discriminate.
    - exists (text "3 "). reflexivity.
    - exists (text "4" ++ [0]). reflexivity. }
  split; [exact H|].
  apply (one_request_per_chunk unicode15_decimal _ 0%Z [] 0%nat H).
Defined.

Lemma undecodable_chunk_ends_session_witness :
  decode [xff] = Raise UnicodeDecodeError /\
  handle_client unicode15_decimal
    [Data [xff]; Data (ascii "3 4" ++ [x00])]
    (mkState 12 None [ascii "12" ++ [x00]] 0) =
  (Raise UnicodeDecodeError, mkState 12 None [ascii "12" ++ [x00]] 1).
Proof.
  split; [reflexivity|].
  apply (undecodable_chunk_ends_session unicode15_decimal [xff]
           [Data (ascii "3 4" ++ [x00])]
           (mkState 12 None [ascii "12" ++ [x00]] 0)).
  reflexivity.
Defined.

Lemma handle_client_deterministic_witness :
  let stream1 := [Data (ascii "3 4" ++ [x00]); Data (ascii "2 5" ++ [x00])] in
  let stream2 := [Data (ascii "3 4" ++ [x00]); Data (ascii "2 5" ++ [x00]);
                  Data []; Data (ascii "9 9" ++ [x00])] in
  let st1 := initial_state (Some 1%nat) in
  let st2 := mkState 0 None [ascii "7" ++ [x00]] 2 in
  accumulator st1 = accumulator st2 /\
  received_chunks stream1 (writable st1) =
    received_chunks stream2 (writable st2) /\
  fst (handle_client unicode15_decimal stream1 st1) = Raise OSError /\
  fst (handle_client unicode15_decimal stream2 st2) = Ok tt /\
  accumulator (snd (handle_client unicode15_decimal stream1 st1)) =
    accumulator (snd (handle_client unicode15_decimal stream2 st2)) /\
  exists out,
    sent (snd (handle_client unicode15_decimal stream1 st1)) =
      sent st1 ++ out /\
    sent (snd (handle_client unicode15_decimal stream2 st2)) =
      sent st2 ++ out.
Proof.
  intros stream1 stream2 st1 st2.
  split; [reflexivity|]. split; [reflexivity|].
  split; [reflexivity|]. split; [reflexivity|].
  apply (handle_client_deterministic unicode15_decimal stream1 stream2
           st1 st2); reflexivity.
Defined.

Lemma handler_strips_trailing_nuls_witness :
  let data := ascii "3" ++ [x00] ++ ascii "1 4" ++ [x00; x00] in
  let m := text "3" ++ [0] ++ text "1 4" in
  decode data = Ok (m ++ repeat 0 2) /\
  (forall q, m <> q ++ [0]) /\
  two_integers unicode15_decimal (split m) = None /\
  serve_chunk unicode15_decimal data (mkState 12 None [] 0) =
    sendall (ascii "12" ++ [x00]) (mkState 12 None [] 0) /\
  serve_chunk unicode15_decimal (ascii "3 4" ++ [x00; x00; x00])
              (mkState 0 None [] 0) =
    sendall (ascii "12" ++ [x00]) (mkState 12 None [] 0).
Proof.
  intros data m.
  assert (Hm : forall q, m <> q ++ [0]).
  { intros q H. apply (f_equal (fun l => last l 1)) in H.
    rewrite last_last in H. vm_compute in H. discriminate. }
  assert (H34 : forall q, text "3 4" <> q ++ [0]).
  { intros q H. apply (f_equal (fun l => last l 1)) in H.
    rewrite last_last in H. vm_compute in H. discriminate. }
  split; [reflexivity|]. split; [exact Hm|]. split; [reflexivity|].
  split.
  - apply (handler_strips_trailing_nuls unicode15_decimal data
             (m ++ repeat 0 2) m 2 12%Z None [] 0%nat);
      [reflexivity|reflexivity|exact Hm].
  - apply (handler_strips_trailing_nuls unicode15_decimal
             (ascii "3 4" ++ [x00; x00; x00])
             (text "3 4" ++ repeat 0 3) (text "3 4") 3 0%Z None [] 0%nat);
      [reflexivity|reflexivity|exact H34].
Defined.

(* ================================================================= *)
(** * Further properties of the protocol *)

(** ** Tokens *)

Lemma split_space c s : isspace c = true -> split (c :: s) = split s.
Proof.
  intros Hc. unfold split. cbn [split_from].
  destruct (split_from s) as [tok toks]. now rewrite Hc.
Qed.

Lemma split_blank ws s :
  Forall (fun c => isspace c = true) ws -> split (ws ++ s) = split s.
Proof.
  induction 1 as [|c ws Hc _ IH]; [reflexivity|].
  cbn [app]. now rewrite split_space.
Qed.

Lemma split_from_token tok s :
  Forall (fun c => isspace c = false) tok ->
  split_from (tok ++ s) = (tok ++ fst (split_from s), snd (split_from s)).
Proof.
  induction 1 as [|c tok Hc _ IH]; cbn [app split_from].
  - now destruct (split_from s).
  - rewrite IH, Hc. reflexivity.
Qed.

Lemma split_token_end tok :
  tok <> [] -> Forall (fun c => isspace c = false) tok -> split tok = [tok].
Proof.
  intros Hne Hall. unfold split.
  rewrite <- (app_nil_r tok) at 1. rewrite split_from_token by assumption.
  cbn. rewrite app_nil_r. now destruct tok.
Qed.

Lemma split_token_space tok c s :
  tok <> [] -> Forall (fun c => isspace c = false) tok ->
  isspace c = true ->
  split (tok ++ c :: s) = tok :: split s.
Proof.
  intros Hne Hall Hc. unfold split.
  rewrite split_from_token by assumption. cbn [split_from].
  destruct (split_from s) as [tok' toks']. rewrite Hc.
  cbn [fst snd]. rewrite app_nil_r.
  unfold push_token at 1. now destruct tok.
Qed.

(** A character that is not whitespace ends up in one of the pieces. *)
Lemma split_from_keeps c s :
  In c s -> isspace c = false ->
  In c (fst (split_from s)) \/
  exists tok, In tok (snd (split_from s)) /\ In c tok.
Proof.
  intros Hin Hc. induction s as [|c' s IH]; [contradiction|].
  cbn [split_from]. destruct (split_from s) as [tok toks].
  cbn [fst snd] in IH.
  destruct Hin as [->|Hin].
  - rewrite Hc. left. now left.
  - specialize (IH Hin). destruct (isspace c') eqn:Ec'; cbn [fst snd].
    + right. destruct IH as [IH|(tok' & H1 & H2)].
      * exists tok. split; [|assumption].
        unfold push_token. destruct tok; [contradiction|now left].
      * exists tok'. split; [|assumption].
        unfold push_token. destruct tok; [assumption|now right].
    + destruct IH as [IH|IH]; [left; now right|now right].
Qed.

Lemma split_keeps c s :
  In c s -> isspace c = false -> exists tok, In tok (split s) /\ In c tok.
Proof.
  intros Hin Hc. unfold split.
  destruct (split_from_keeps c s Hin Hc) as [H|(tok & H1 & H2)];
    destruct (split_from s) as [tok0 toks]; cbn [fst snd] in *.
  - exists tok0. split; [|assumption].
    unfold push_token. destruct tok0; [contradiction|now left].
  - exists tok. split; [|assumption].
    unfold push_token. destruct tok0; [assumption|now right].
Qed.

(** ** Decimal strings as tokens *)

Lemma decimal_chars z s :
  is_decimal_of z s ->
  s <> [] /\ Forall (fun c => c = 45 \/ 48 <= c <= 57) s.
Proof.
  intros (ds & Hne & Hall & _ & _ & ->). split.
  - destruct (z <? 0)%Z; [discriminate|]. now destruct ds.
  - apply Forall_app. split.
    + destruct (z <? 0)%Z; repeat constructor.
    + apply Forall_map. eapply Forall_impl; [|exact Hall].
      intros d Hd. cbv beta in *. right. lia.
Qed.

Lemma decimal_char_not_space c :
  c = 45 \/ 48 <= c <= 57 -> isspace c = false.
Proof.
  intros [->|Hc]; [reflexivity|].
  unfold isspace, in_range.
  repeat match goal with
         | |- context [?a <=? ?b] => destruct (N.leb_spec a b); try lia
         | |- context [?a =? ?b] => destruct (N.eqb_spec a b); try lia
         end; reflexivity.
Qed.

Lemma str_of_int_token z :
  str_of_int z <> [] /\
  Forall (fun c => isspace c = false) (str_of_int z).
Proof.
  destruct (decimal_chars z _ (str_of_int_decimal z)) as [Hne Hall].
  split; [assumption|].
  eapply Forall_impl; [|exact Hall]. apply decimal_char_not_space.
Qed.

Lemma space_not_nul c : isspace c = true -> c <> 0.
Proof. intros H ->. discriminate. Qed.

Lemma no_nul_not_trailing (p : str) : ~ In 0 p -> forall q, p <> q ++ [0].
Proof.
  intros Hno q ->. apply Hno, in_or_app. right. now left.
Qed.

Lemma rstrip_nul_no_nul (p : str) k :
  ~ In 0 p -> rstrip [0] (p ++ repeat 0 k) = p.
Proof.
  intros Hno. now apply rstrip_nul_app_nuls, no_nul_not_trailing.
Qed.

Lemma decode_ascii_nuls s k :
  Forall (fun c => c < 128) s ->
  decode (map byte_of_N s ++ repeat x00 k) = Ok (s ++ repeat 0 k).
Proof.
  intros Hs. unfold decode.
  change (repeat x00 k) with (repeat (byte_of_N 0) k).
  rewrite <- map_repeat, <- map_app, utf8_decode_ascii; [reflexivity|].
  apply Forall_app. split; [assumption|].
  apply Forall_forall. intros c Hc. apply repeat_spec in Hc. now subst.
Qed.

Lemma blank_ascii ws : blank ws -> Forall (fun c => c < 128) ws.
Proof. intros H. eapply Forall_impl; [|exact H]. now intros c [_ Hc]. Qed.

Lemma blank_space ws : blank ws -> Forall (fun c => isspace c = true) ws.
Proof. intros H. eapply Forall_impl; [|exact H]. now intros c [Hc _]. Qed.

Lemma blank_no_nul ws : blank ws -> ~ In 0 ws.
Proof.
  intros H Hin. apply blank_space in H.
  rewrite Forall_forall in H. now apply H in Hin.
Qed.

(** ** What [int] rejects and accepts *)

Lemma scan_digits_nul td s :
  In 0 s -> forall prev acc, scan_digits td prev acc s = None.
Proof.
  induction s as [|c s IH]; intros Hin prev acc; [contradiction|].
  cbn [scan_digits]. destruct Hin as [->|Hin].
  - reflexivity.
  - destruct (c =? 95).
    + destruct prev; auto.
    + destruct (decimal_value td c); auto.
Qed.

Lemma int_rejects_nul td tok : In 0 tok -> int td tok = Raise ValueError.
Proof.
  intros Hin. unfold int. destruct tok as [|c r]; [contradiction|].
  assert (Hbody : In 0 (if (c =? 45) || (c =? 43) then tl (c :: r)
                        else c :: r)).
  { destruct Hin as [->|Hin]; [now left|].
    destruct ((c =? 45) || (c =? 43)); [assumption|now right]. }
  now rewrite (scan_digits_nul td _ Hbody).
Qed.

Lemma scan_digits_run td ds :
  Forall (fun d => d < 10) ds ->
  forall acc s,
    scan_digits td AfterDigit acc (map (fun d => 48 + d) ds ++ s) =
    scan_digits td AfterDigit (fold_left (fun a d => 10 * a + d) ds acc) s.
Proof.
  induction 1 as [|d ds Hd _ IH]; intros acc s; [reflexivity|].
  cbn [map app scan_digits fold_left].
  destruct (digit_char_value td d Hd) as [-> ->]. apply IH.
Qed.

Lemma scan_digits_start td d ds s :
  d < 10 -> Forall (fun d => d < 10) ds ->
  forall prev acc,
    scan_digits td prev acc (map (fun d => 48 + d) (d :: ds) ++ s) =
    scan_digits td AfterDigit
      (fold_left (fun a d => 10 * a + d) (d :: ds) acc) s.
Proof.
  intros Hd Hall prev acc. cbn [map app scan_digits fold_left].
  destruct (digit_char_value td d Hd) as [-> ->].
  now apply scan_digits_run.
Qed.

(** ** Requests in the documented format *)

Lemma tokens_of_decimal_pair (a b : Z) (ws0 ws1 ws2 : str) (k : nat) :
  blank ws0 -> blank ws1 -> ws1 <> [] -> blank ws2 ->
  let t := ws0 ++ str_of_int a ++ ws1 ++ str_of_int b ++ ws2 in
  decode (map byte_of_N t ++ repeat x00 k) = Ok (t ++ repeat 0 k) /\
  request_tokens (t ++ repeat 0 k) = [str_of_int a; str_of_int b].
Proof.
  intros H0 H1 Hne H2 t.
  assert (Hascii : Forall (fun c => c < 128) t).
  { unfold t. repeat (apply Forall_app; split);
      auto using blank_ascii;
      eapply decimal_is_ascii, str_of_int_decimal. }
  assert (Hnul : ~ In 0 t).
  { unfold t. rewrite !in_app_iff.
    intros [H|[H|[H|[H|H]]]];
      first [ now apply (blank_no_nul _ H0)
            | now apply (blank_no_nul _ H1)
            | now apply (blank_no_nul _ H2)
            | now apply (decimal_no_nul a _ (str_of_int_decimal a))
            | now apply (decimal_no_nul b _ (str_of_int_decimal b)) ]. }
  split; [now apply decode_ascii_nuls|].
  unfold request_tokens. rewrite (rstrip_nul_no_nul t k Hnul).
  destruct (str_of_int_token a) as [Hane Hatok].
  destruct (str_of_int_token b) as [Hbne Hbtok].
  unfold t. rewrite (split_blank ws0) by now apply blank_space.
  destruct ws1 as [|c1 ws1']; [congruence|].
  inversion H1 as [|? ? [Hc1 _] H1']; subst.
  cbn [app]. rewrite split_token_space by assumption.
  rewrite (split_blank ws1') by now apply blank_space.
  destruct ws2 as [|c2 ws2'].
  - rewrite app_nil_r. now rewrite split_token_end.
  - inversion H2 as [|? ? [Hc2 _] H2']; subst.
    rewrite split_token_space by assumption.
    rewrite <- (app_nil_r ws2').
    rewrite (split_blank ws2') by now apply blank_space.
    reflexivity.
Qed.

Lemma request_decoded (a b : Z) :
  decode (request a b) = Ok (str_of_int a ++ [32] ++ str_of_int b ++ [0]) /\
  request_tokens (str_of_int a ++ [32] ++ str_of_int b ++ [0]) =
    [str_of_int a; str_of_int b].
Proof.
  assert (Hsp : blank [32]) by (repeat constructor).
  destruct (tokens_of_decimal_pair a b [] [32] [] 1
              (Forall_nil _) Hsp ltac:(discriminate) (Forall_nil _))
    as [Hdec Htok].
  cbn [app repeat] in Hdec, Htok. rewrite !app_nil_r in Hdec.
  rewrite !app_nil_r, <- !app_assoc in Htok.
  rewrite <- !app_assoc in Hdec. now split.
Qed.

Lemma request_is_request (a b : Z) : is_request (request a b).
Proof.
  split.
  - unfold request. now destruct (map byte_of_N _).
  - eexists. apply request_decoded.
Qed.

Lemma contribution_request td (a b : Z) :
  contribution td (request a b) = (a * b)%Z.
Proof.
  unfold contribution, operands.
  destruct (request_decoded a b) as [-> ->].
  cbn [two_integers]. now rewrite !int_str_of_int.
Qed.

Section Protocol.

Variable todecimal : N -> option N.

(** X1.  A response can be read back: decoded, stripped of its null and
    given to [int], it is the accumulator it was made from.  So two
    different totals never have the same response. *)
Theorem response_round_trip :
  (forall z, exists t,
     decode (wire z) = Ok t /\ int todecimal (rstrip [0] t) = Ok z) /\
  (forall z1 z2, wire z1 = wire z2 -> z1 = z2).
Proof.
  assert (Hback : forall z, exists t,
            decode (wire z) = Ok t /\ int todecimal (rstrip [0] t) = Ok z).
  { intros z. exists (str_of_int z ++ [0]). split; [apply decode_wire|].
    change [0] with (repeat 0 1) at 2.
    rewrite rstrip_nul_no_nul; [apply int_str_of_int|].
    apply (decimal_no_nul z), str_of_int_decimal. }
  split; [exact Hback|].
  intros z1 z2 Heq.
  destruct (Hback z1) as (t1 & Hd1 & Hi1), (Hback z2) as (t2 & Hd2 & Hi2).
  rewrite Heq, Hd2 in Hd1. injection Hd1 as <-. congruence.
Qed.

(** X2.  Two integers written in decimal are read as that pair whatever
    whitespace stands before, between (at least one character) and after
    them, and whatever the number of nulls that end the chunk, none
    included. *)
Theorem well_formed_request_parsed (a b : Z) (ws0 ws1 ws2 : str) (k : nat) :
  blank ws0 -> blank ws1 -> ws1 <> [] -> blank ws2 ->
  operands todecimal
    (map byte_of_N (ws0 ++ str_of_int a ++ ws1 ++ str_of_int b ++ ws2)
     ++ repeat x00 k) = Some (a, b).
Proof.
  intros H0 H1 Hne H2.
  destruct (tokens_of_decimal_pair a b ws0 ws1 ws2 k H0 H1 Hne H2)
    as [Hdec Htok].
  unfold operands. rewrite Hdec, Htok. cbn [two_integers].
  now rewrite !int_str_of_int.
Qed.

(** X8.  A null that is left in the text after the trailing nulls are
    stripped makes the request malformed, whatever surrounds it: it is
    not whitespace, so it stays inside a token, and [int] rejects that
    token. *)
Theorem interior_nul_is_malformed (data : bytes) (t : str) :
  decode data = Ok t ->
  In 0 (rstrip [0] t) ->
  operands todecimal data = None.
Proof.
  intros Hdec Hin. unfold operands, request_tokens. rewrite Hdec.
  destruct (split_keeps 0 _ Hin eq_refl) as (tok & Htok & Hnul).
  apply (int_rejects_nul todecimal) in Hnul.
  destruct (split (rstrip [0] t)) as [|t0 [|t1 [|t2 r]]]; try reflexivity.
  cbn [two_integers].
  destruct Htok as [<-|[<-|[]]].
  - now rewrite Hnul.
  - rewrite Hnul. now destruct (int todecimal t0).
Qed.

(** X9.  [int] takes more than the decimal strings the server writes:
    leading zeros, an explicit sign, and one underscore between two
    digits.  The value is that of the digits alone. *)
Theorem int_accepts_liberal_syntax (ds1 ds2 : list N) :
  ds1 <> [] -> Forall (fun d => d < 10) ds1 ->
  ds2 <> [] -> Forall (fun d => d < 10) ds2 ->
  let digits := map (fun d => 48 + d) in
  int todecimal (digits ds1) = Ok (Z.of_N (horner ds1)) /\
  int todecimal (43 :: digits ds1) = Ok (Z.of_N (horner ds1)) /\
  int todecimal (45 :: digits ds1) = Ok (- Z.of_N (horner ds1))%Z /\
  int todecimal (digits ds1 ++ [95] ++ digits ds2) =
    Ok (Z.of_N (horner (ds1 ++ ds2))).
Proof.
  intros Hne1 Hall1 Hne2 Hall2 digits. unfold digits.
  destruct ds1 as [|d1 ds1]; [congruence|].
  destruct ds2 as [|d2 ds2]; [congruence|].
  assert (Hd1 : d1 < 10) by now inversion Hall1.
  assert (H45 : (48 + d1 =? 45) = false) by (apply N.eqb_neq; lia).
  assert (H43 : (48 + d1 =? 43) = false) by (apply N.eqb_neq; lia).
  assert (Hscan : scan_digits todecimal AtStart 0
                    (map (fun d => 48 + d) (d1 :: ds1)) =
                  Some (horner (d1 :: ds1)))
    by now apply scan_digits_digits.
  split; [|split; [|split]].
  - unfold int. cbn [map]. rewrite H45, H43. cbn [orb].
    change (48 + d1 :: map (fun d => 48 + d) ds1)
      with (map (fun d => 48 + d) (d1 :: ds1)).
    now rewrite Hscan.
  - unfold int. cbn [N.eqb Pos.eqb orb tl]. now rewrite Hscan.
  - unfold int. cbn [N.eqb Pos.eqb orb tl]. now rewrite Hscan.
  - unfold int. cbn [map app]. rewrite H45, H43. cbn [orb].
    change (48 + d1 :: map (fun d => 48 + d) ds1 ++
            95 :: 48 + d2 :: map (fun d => 48 + d) ds2)
      with (map (fun d => 48 + d) (d1 :: ds1) ++
            95 :: 48 + d2 :: map (fun d => 48 + d) ds2).
    inversion Hall1; subst. inversion Hall2; subst.
    rewrite scan_digits_start by assumption.
    cbn [scan_digits N.eqb Pos.eqb].
    destruct (digit_char_value todecimal d2) as [-> ->]; [assumption|].
    rewrite scan_digits_after_digit by assumption.
    unfold horner. cbn [app fold_left]. now rewrite fold_left_app.
Qed.

End Protocol.

(* ================================================================= *)
(** * Further properties of the session *)

(** ** Serving a run of requests *)

Lemma request_loop_prefix_none td chunks rest :
  Forall is_request chunks ->
  forall acc log c,
    request_loop td (map Data chunks ++ rest) (mkState acc None log c) =
    request_loop td rest
      (mkState (acc + total td chunks) None
               (log ++ map wire (running_totals td acc chunks)) c).
Proof.
  induction 1 as [|data chunks Hreq _ IH]; intros acc log c.
  - cbn. now rewrite Z.add_0_r, app_nil_r.
  - cbn [map app].
    rewrite (request_loop_step td data _ acc None log c Hreq). cbv zeta.
    rewrite IH. cbn. now rewrite <- app_assoc, Z.add_assoc.
Qed.

Lemma request_loop_prefix_some td chunks rest :
  Forall is_request chunks ->
  forall acc m log c,
    request_loop td (map Data chunks ++ rest)
      (mkState acc (Some (List.length chunks + m)%nat) log c) =
    request_loop td rest
      (mkState (acc + total td chunks) (Some m)
               (log ++ map wire (running_totals td acc chunks)) c).
Proof.
  induction 1 as [|data chunks Hreq _ IH]; intros acc m log c.
  - cbn. now rewrite Z.add_0_r, app_nil_r.
  - cbn [map app List.length Nat.add].
    rewrite (request_loop_step td data _ acc _ log c Hreq). cbv zeta.
    rewrite IH. cbn. now rewrite <- app_assoc, Z.add_assoc.
Qed.

(** ** How the loop ends *)

Lemma ended_by_one_more r rest w n :
  ended_by r rest w n -> ended_by r rest (option_map S w) (S n).
Proof.
  destruct r as [[]|[]]; cbn; auto.
  intros [H|(k & Hw & ->)]; [now left|right].
  destruct w as [k'|]; [|discriminate].
  injection Hw as ->. now exists (S k).
Qed.

Lemma request_loop_run td stream :
  forall acc w log c,
  exists served rest r w',
    stream = map Data served ++ rest /\
    Forall is_request served /\
    request_loop td stream (mkState acc w log c) =
    (r, mkState (acc + total td served) w'
                (log ++ map wire (running_totals td acc served)) c) /\
    ended_by r rest w (List.length served).
Proof.
  induction stream as [|ev stream IH]; intros acc w log c.
  - exists [], [], (Ok tt), w. cbn. rewrite Z.add_0_r, app_nil_r.
    repeat split; auto.
  - assert (Hstop : forall r,
      request_loop td (ev :: stream) (mkState acc w log c) =
        (r, mkState acc w log c) ->
      ended_by r (ev :: stream) w 0 ->
      exists served rest r w',
        ev :: stream = map Data served ++ rest /\
        Forall is_request served /\
        request_loop td (ev :: stream) (mkState acc w log c) =
        (r, mkState (acc + total td served) w'
                    (log ++ map wire (running_totals td acc served)) c) /\
        ended_by r rest w (List.length served)).
    { intros r H He. exists [], (ev :: stream), r, w.
      cbn [map app total fold_right running_totals List.length].
      rewrite Z.add_0_r, app_nil_r. repeat split; auto. }
    destruct ev as [data|].
    2:{ apply (Hstop (Raise OSError)); [reflexivity|]. left. now eexists. }
    destruct data as [|b data'].
    { apply (Hstop (Ok tt)); [reflexivity|]. right. now eexists. }
    set (data := b :: data') in *.
    destruct (decode_cases data) as [[t Hdec]|[Hnone Hdec]].
    + assert (Hreq : is_request data) by (split; [discriminate|now exists t]).
      pose proof (request_loop_step td data stream acc w log c Hreq) as Hstep.
      cbv zeta in Hstep. set (acc1 := (acc + contribution td data)%Z) in *.
      destruct w as [[|n]|].
      * exists [data], stream, (Raise OSError), (Some 0%nat).
        split; [reflexivity|]. split; [now constructor|].
        rewrite Hstep. cbn. fold acc1. rewrite Z.add_0_r.
        split; [reflexivity|]. right. now exists 0%nat.
      * destruct (IH acc1 (Some n) (log ++ [wire acc1]) c)
          as (served & rest & r & w' & -> & Hall & Hrun & Hend).
        exists (data :: served), rest, r, w'.
        split; [reflexivity|]. split; [now constructor|].
        rewrite Hstep, Hrun. cbn [total fold_right running_totals map].
        fold acc1. fold (total td served).
        rewrite <- app_assoc, Z.add_assoc. split; [reflexivity|].
        apply (ended_by_one_more r rest (Some n)), Hend.
      * destruct (IH acc1 None (log ++ [wire acc1]) c)
          as (served & rest & r & w' & -> & Hall & Hrun & Hend).
        exists (data :: served), rest, r, w'.
        split; [reflexivity|]. split; [now constructor|].
        rewrite Hstep, Hrun. cbn [total fold_right running_totals map].
        fold acc1. fold (total td served).
        rewrite <- app_assoc, Z.add_assoc. split; [reflexivity|].
        apply (ended_by_one_more r rest None), Hend.
    + apply (Hstop (Raise UnicodeDecodeError)).
      * now apply request_loop_undecodable.
      * cbn. now exists data, stream.
Qed.

(** ** Framing *)

Lemma wire_framed z :
  exists body, wire z = body ++ [x00] /\ ~ In x00 body.
Proof.
  exists (map byte_of_N (str_of_int z)). split; [reflexivity|].
  intros Hin. apply in_map_iff in Hin. destruct Hin as (c & Hc & Hin).
  pose proof (decimal_is_ascii z _ (str_of_int_decimal z)) as Hascii.
  rewrite Forall_forall in Hascii. specialize (Hascii c Hin).
  assert (Hz : c = 0).
  { rewrite <- (byte_of_N_to_N c) by lia. now rewrite Hc. }
  subst c. now apply (decimal_no_nul z _ (str_of_int_decimal z)).
Qed.

(** ** Order of the requests *)

Lemma total_permutation td chunks chunks' :
  Permutation chunks chunks' -> total td chunks = total td chunks'.
Proof.
  induction 1 as [|d l l' _ IH|d1 d2 l|l1 l2 l3 _ IH1 _ IH2];
    cbn [total fold_right] in *; try fold (total td l) in *;
    try fold (total td l') in *; lia.
Qed.

(** ** Sessions of documented requests *)

Lemma total_requests td pairs :
  total td (map (fun ab => request (fst ab) (snd ab)) pairs) =
  sum_of_products pairs.
Proof.
  induction pairs as [|[a b] pairs IH]; [reflexivity|].
  cbn [map total fold_right sum_of_products fst snd].
  fold (total td (map (fun ab => request (fst ab) (snd ab)) pairs)).
  fold (sum_of_products pairs).
  now rewrite contribution_request, IH.
Qed.

Lemma running_totals_requests td pairs :
  forall acc,
    running_totals td acc (map (fun ab => request (fst ab) (snd ab)) pairs) =
    running_sums acc pairs.
Proof.
  induction pairs as [|[a b] pairs IH]; intros acc; [reflexivity|].
  cbn [map running_totals running_sums fst snd].
  now rewrite contribution_request, IH.
Qed.

Lemma requests_are_requests pairs :
  Forall is_request (map (fun ab => request (fst ab) (snd ab)) pairs).
Proof.
  apply Forall_map, Forall_forall. intros [a b] _. apply request_is_request.
Qed.

(** ** The end of the stream *)

Lemma request_loop_empty_chunk td pre rest :
  forall st,
    request_loop td (pre ++ Data [] :: rest) st = request_loop td pre st.
Proof.
  induction pre as [|ev pre IH]; intros [acc w log c]; [reflexivity|].
  destruct ev as [data|]; [|reflexivity].
  destruct data as [|b data']; [reflexivity|].
  set (data := b :: data') in *. cbn [app].
  destruct (decode_cases data) as [[t Hdec]|[Hnone Hdec]].
  - assert (Hreq : is_request data) by (split; [discriminate|now exists t]).
    rewrite !(request_loop_step td data _ acc w log c Hreq). cbv zeta.
    destruct w as [[|n]|]; [reflexivity|apply IH|apply IH].
  - now rewrite !request_loop_undecodable.
Qed.

Section Session.

Variable todecimal : N -> option N.

(** X3.  [start_server] on a session of requests in the documented
    format, with a peer that takes every write: it returns normally, the
    accumulator is the sum of the products, the responses are the sums
    after each request, and the connection has been closed once. *)
Theorem session_of_requests (pairs : list (Z * Z)) :
  start_server todecimal
    (map Data (map (fun ab => request (fst ab) (snd ab)) pairs)) None =
  (Ok tt,
   mkState (sum_of_products pairs) None
           (map wire (running_sums 0 pairs)) 1).
Proof.
  unfold start_server, initial_state.
  rewrite handle_client_request_loop.
  rewrite (request_loop_all_served todecimal _ (requests_are_requests pairs)).
  cbn [fst snd close accumulator writable sent closed app].
  now rewrite total_requests, running_totals_requests.
Qed.

(** X4.  The total does not depend on the order in which the requests
    arrive: two sessions that serve the same chunks in different orders
    both return normally, with the same accumulator. *)
Theorem order_of_requests_irrelevant (chunks chunks' : list bytes)
  (acc : Z) (log : list bytes) (c : nat) :
  Permutation chunks chunks' ->
  Forall is_request chunks ->
  fst (handle_client todecimal (map Data chunks) (mkState acc None log c)) =
    Ok tt /\
  fst (handle_client todecimal (map Data chunks') (mkState acc None log c)) =
    Ok tt /\
  accumulator
    (snd (handle_client todecimal (map Data chunks)
                        (mkState acc None log c))) =
  accumulator
    (snd (handle_client todecimal (map Data chunks')
                        (mkState acc None log c))).
Proof.
  intros Hperm Hall.
  assert (Hall' : Forall is_request chunks')
    by (eapply Permutation_Forall; eassumption).
  rewrite !handle_client_request_loop.
  rewrite (request_loop_all_served todecimal chunks Hall).
  rewrite (request_loop_all_served todecimal chunks' Hall').
  cbn [fst snd close accumulator].
  now rewrite (total_permutation todecimal chunks chunks' Hperm).
Qed.

(** X5.  When the peer stops taking writes, the request whose response
    could not be written has still been added to the accumulator: the
    update comes before the write.  The handler then raises [OSError],
    reads nothing more and closes the connection. *)
Theorem failed_write_keeps_the_update (chunks : list bytes) (data : bytes)
  (rest : list recv_event) (acc : Z) (log : list bytes) (c : nat) :
  Forall is_request chunks ->
  is_request data ->
  let acc' := (acc + total todecimal chunks + contribution todecimal data)%Z in
  handle_client todecimal (map Data chunks ++ Data data :: rest)
    (mkState acc (Some (List.length chunks)) log c) =
  (Raise OSError,
   mkState acc' (Some 0%nat)
     (log ++ map wire (running_totals todecimal acc chunks) ++ [wire acc'])
     (S c)).
Proof.
  intros Hall Hreq acc'. rewrite handle_client_request_loop.
  rewrite <- (Nat.add_0_r (List.length chunks)).
  rewrite (request_loop_prefix_some todecimal chunks _ Hall).
  rewrite (request_loop_step todecimal data rest _ (Some 0%nat) _ c Hreq).
  cbv zeta. cbn [fst snd close accumulator writable sent closed].
  now rewrite <- app_assoc.
Qed.

(** X6.  The handler returns normally only at the end of the stream:
    when it does, everything the stream held before it ran out, or before
    the first read that gave no bytes, was a chunk that decoded and was
    served, its contribution added and its response handed to
    [sendall]. *)
Theorem normal_return_at_end_of_stream (stream : list recv_event)
  (st : state) :
  fst (handle_client todecimal stream st) = Ok tt ->
  exists served rest,
    stream = map Data served ++ rest /\
    Forall is_request served /\
    (rest = [] \/ exists rest', rest = Data [] :: rest') /\
    accumulator (snd (handle_client todecimal stream st)) =
      (accumulator st + total todecimal served)%Z /\
    sent (snd (handle_client todecimal stream st)) =
      sent st ++ map wire (running_totals todecimal (accumulator st) served).
Proof.
  destruct st as [acc w log c].
  destruct (request_loop_run todecimal stream acc w log c)
    as (served & rest & r & w' & Hsplit & Hall & Hrun & Hend).
  rewrite handle_client_request_loop, Hrun.
  cbn [fst snd close sent accumulator]. intros ->.
  exists served, rest. repeat split; assumption.
Qed.

(** X7.  Whatever the stream and the state, each payload the handler
    hands to [sendall] is one frame: some bytes without a null, then one
    null.  And there are never more of them than reads. *)
Theorem responses_are_framed (stream : list recv_event) (st : state) :
  exists out,
    sent (snd (handle_client todecimal stream st)) = sent st ++ out /\
    (List.length out <= List.length stream)%nat /\
    Forall (fun payload =>
              exists body, payload = body ++ [x00] /\ ~ In x00 body) out.
Proof.
  destruct st as [acc w log c].
  destruct (request_loop_trace todecimal stream acc w log c)
    as (served & rest & r & w' & Hsplit & _ & Hrun).
  exists (map wire (running_totals todecimal acc served)).
  rewrite handle_client_request_loop, Hrun. cbn [snd close sent].
  split; [reflexivity|]. split.
  - rewrite Hsplit, length_app, !length_map, running_totals_length. lia.
  - apply Forall_map, Forall_forall. intros z _. apply wire_framed.
Qed.

(** X10.  A session can be cut after any run of requests that were
    served: handling the whole stream is handling what follows the run,
    from the state the run leaves. *)
Theorem served_prefix_composes (chunks : list bytes)
  (rest : list recv_event) (acc : Z) (log : list bytes) (c : nat) :
  Forall is_request chunks ->
  handle_client todecimal (map Data chunks ++ rest)
    (mkState acc None log c) =
  handle_client todecimal rest
    (mkState (acc + total todecimal chunks) None
       (log ++ map wire (running_totals todecimal acc chunks)) c).
Proof.
  intros Hall. rewrite !handle_client_request_loop.
  now rewrite (request_loop_prefix_none todecimal chunks rest Hall).
Qed.

(** X11.  A read that gives no bytes ends the session for good: what the
    stream holds after it has no effect on the outcome or on the state. *)
Theorem nothing_read_after_empty_chunk (pre rest : list recv_event)
  (st : state) :
  handle_client todecimal (pre ++ Data [] :: rest) st =
  handle_client todecimal pre st.
Proof.
  rewrite !handle_client_request_loop.
  now rewrite request_loop_empty_chunk.
Qed.

End Session.

(* ================================================================= *)
(** * Concrete instances of the further properties *)

(** A concrete chunk is a request: it has a byte and it decodes. *)
Ltac concrete_request :=
  split; [vm_compute; discriminate | eexists; reflexivity].

Lemma well_formed_request_parsed_witness :
  blank [32] /\ blank [9; 32] /\ [9; 32] <> [] /\ blank [10] /\
  operands unicode15_decimal
    (map byte_of_N
       ([32] ++ str_of_int (-3) ++ [9; 32] ++ str_of_int 4 ++ [10])
     ++ repeat x00 2) = Some ((-3)%Z, 4%Z).
Proof.
  assert (H0 : blank [32]) by (repeat constructor).
  assert (H1 : blank [9; 32]) by (repeat constructor).
  assert (H2 : blank [10]) by (repeat constructor).
  split; [exact H0|]. split; [exact H1|]. split; [discriminate|].
  split; [exact H2|].
  apply (well_formed_request_parsed unicode15_decimal (-3) 4
           [32] [9; 32] [10] 2 H0 H1); [discriminate|exact H2].
Defined.

Lemma interior_nul_is_malformed_witness :
  let data := ascii "3 4" ++ [x00] ++ ascii "2 5" ++ [x00] in
  let t := text "3 4" ++ [0] ++ text "2 5" ++ [0] in
  decode data = Ok t /\ In 0 (rstrip [0] t) /\
  operands unicode15_decimal data = None.
Proof.
  intros data t.
  assert (Hin : In 0 (rstrip [0] t)) by (vm_compute; do 3 right; now left).
  split; [reflexivity|]. split; [exact Hin|].
  apply (interior_nul_is_malformed unicode15_decimal data t);
    [reflexivity|exact Hin].
Defined.

Lemma int_accepts_liberal_syntax_witness :
  int unicode15_decimal (text "007") = Ok 7%Z /\
  int unicode15_decimal (text "+007") = Ok 7%Z /\
  int unicode15_decimal (text "-007") = Ok (-7)%Z /\
  int unicode15_decimal (text "007_12") = Ok 712%Z.
Proof.
  apply (int_accepts_liberal_syntax unicode15_decimal [0; 0; 7] [1; 2]);
    first [discriminate | repeat constructor].
Defined.

Lemma order_of_requests_irrelevant_witness :
  let chunks := [request 3 4; ascii "foo" ++ [x00]; request (-2) 5] in
  let chunks' := [ascii "foo" ++ [x00]; request (-2) 5; request 3 4] in
  Permutation chunks chunks' /\
  Forall is_request chunks /\
  accumulator
    (snd (handle_client unicode15_decimal (map Data chunks)
                        (mkState 0 None [] 0))) =
  accumulator
    (snd (handle_client unicode15_decimal (map Data chunks')
                        (mkState 0 None [] 0))).
Proof.
  intros chunks chunks'.
  assert (Hperm : Permutation chunks chunks').
  { unfold chunks, chunks'.
    eapply perm_trans; [apply perm_swap|]. apply perm_skip, perm_swap. }
  assert (Hall : Forall is_request chunks).
  { unfold chunks. repeat (constructor; [concrete_request|]).
    constructor. }
  split; [exact Hperm|]. split; [exact Hall|].
  apply (order_of_requests_irrelevant unicode15_decimal chunks chunks'
           0%Z [] 0%nat Hperm Hall).
Defined.

Lemma failed_write_keeps_the_update_witness :
  Forall is_request [request 3 4] /\
  is_request (request 2 5) /\
  handle_client unicode15_decimal
    (map Data [request 3 4] ++ Data (request 2 5) :: [Data (request 1 1)])
    (mkState 0 (Some 1%nat) [] 0) =
  (Raise OSError,
   mkState
     (0 + total unicode15_decimal [request 3 4]
      + contribution unicode15_decimal (request 2 5))
     (Some 0%nat)
     ([] ++ map wire (running_totals unicode15_decimal 0 [request 3 4])
      ++ [wire (0 + total unicode15_decimal [request 3 4]
                + contribution unicode15_decimal (request 2 5))])
     1).
Proof.
  assert (Hall : Forall is_request [request 3 4])
    by (constructor; [concrete_request|constructor]).
  assert (Hreq : is_request (request 2 5)) by concrete_request.
  split; [exact Hall|]. split; [exact Hreq|].
  apply (failed_write_keeps_the_update unicode15_decimal [request 3 4]
           (request 2 5) [Data (request 1 1)] 0%Z [] 0%nat Hall Hreq).
Defined.

Lemma served_prefix_composes_witness :
  Forall is_request [request 3 4; request 2 5] /\
  handle_client unicode15_decimal
    (map Data [request 3 4; request 2 5] ++ [Data [xff]])
    (mkState 0 None [] 0) =
  handle_client unicode15_decimal [Data [xff]]
    (mkState (0 + total unicode15_decimal [request 3 4; request 2 5]) None
       ([] ++ map wire (running_totals unicode15_decimal 0
                          [request 3 4; request 2 5])) 0).
Proof.
  assert (Hall : Forall is_request [request 3 4; request 2 5]).
  { repeat (constructor; [concrete_request|]). constructor. }
  split; [exact Hall|].
  apply (served_prefix_composes unicode15_decimal _ [Data [xff]]
           0%Z [] 0%nat Hall).
Defined.

Lemma normal_return_at_end_of_stream_witness :
  let stream := [Data (ascii "3 4" ++ [x00]); Data [];
                 Data (ascii "9 9" ++ [x00])] in
  fst (handle_client unicode15_decimal stream (initial_state None)) = Ok tt /\
  exists served rest,
    stream = map Data served ++ rest /\
    Forall is_request served /\
    (rest = [] \/ exists rest', rest = Data [] :: rest') /\
    accumulator (snd (handle_client unicode15_decimal stream
                                    (initial_state None))) =
      (accumulator (initial_state None)
       + total unicode15_decimal served)%Z /\
    sent (snd (handle_client unicode15_decimal stream (initial_state None))) =
      sent (initial_state None)
      ++ map wire (running_totals unicode15_decimal
                     (accumulator (initial_state None)) served).
Proof.
  intros stream. split; [reflexivity|].
  apply (normal_return_at_end_of_stream unicode15_decimal stream
           (initial_state None)).
  reflexivity.
Defined.

(** The instance of [failed_write_keeps_the_update] above, computed: the
    second product is in the accumulator although its response was not
    taken. *)
Example failed_write_session :
  handle_client unicode15_decimal
    [Data (request 3 4); Data (request 2 5); Data (request 1 1)]
    (mkState 0 (Some 1%nat) [] 0) =
  (Raise OSError,
   mkState 22 (Some 0%nat) [ascii "12" ++ [x00]; ascii "22" ++ [x00]] 1).
Proof. now vm_compute. Qed.
